(** * Job orchestration subsystem of the tweet video renderer

    A shallow embedding of the JavaScript sources
    - [utils/job-manager.js]          (JobManager, the job store),
    - [utils/storage/local.js]        (LocalStorageProvider, the artifact store),
    - [utils/cleanup-scheduler.js]    (CleanupScheduler, the retention sweeper),
    - the worker ([VideoGenerationWorker]) and
    - the HMAC signature verifier,
    followed by the properties of the specification that concern them. *)

From stdpp Require Import gmap strings list fin_maps pretty.
From Stdlib Require Import ZArith Lia Ascii.

Local Open Scope string_scope.
Local Open Scope Z_scope.

#[local] Set Warnings "-clear-no-such-hyp".

(** ** JavaScript values, objects and exceptions *)

Module JS.

Definition loc := positive.

(** The values the modelled code handles.  Numbers are the integers the
    code computes with (counts, sizes, percentages, epoch milliseconds);
    [VIso t] is the string that [new Date(t).toISOString()] returns, kept
    by its instant; [VStr] holds every other string, as ASCII text.
    [VRef l] is a reference to the plain object at address [l] of the
    heap. *)
Inductive val :=
| VUndef
| VNull
| VBool (b : bool)
| VNum (n : Z)
| VStr (s : string)
| VIso (t : Z)
| VRef (l : loc).

#[global] Instance val_eq_dec : EqDecision val.
Proof. solve_decision. Defined.

(** [ToBoolean]: what [!v], [v || w] and [if (v)] test. *)
Definition truthy (v : val) : bool :=
  match v with
  | VUndef | VNull => false
  | VBool b => b
  | VNum n => negb (Z.eqb n 0)
  | VStr s => negb (String.eqb s "")
  | VIso _ => true
  | VRef _ => true
  end.

(** [a || b] *)
Definition or_else (a b : val) : val := if truthy a then a else b.

(** *** Dates *)

(** A [Date] holds an instant at most 8.64e15 milliseconds away from the
    epoch; [TimeClip] turns any other time value into [NaN], which is
    [None] here. *)
Definition MAX_TIME : Z := 8640000000000000.

Definition time_clip (t : Z) : option Z :=
  if Z.abs t <=? MAX_TIME then Some t else None.

(** [Date.parse(s)], [None] for [NaN].  Which texts are dates, and which
    instants they denote, is the engine's business for every text that
    [toISOString] does not produce. *)
Class Engine := { Date_parse : string → option Z }.

(** [new Date(v).getTime()], [None] for an invalid date: a string is
    parsed, a plain object is first turned into the string
    [[object Object]], any other value into a number. *)
Definition date_of `{Engine} (v : val) : option Z :=
  match v with
  | VIso t => time_clip t
  | VStr s => Date_parse s ≫= time_clip
  | VNum n => time_clip n
  | VNull => Some 0
  | VBool b => Some (if b then 1 else 0)
  | VUndef => None
  | VRef _ => Date_parse "[object Object]" ≫= time_clip
  end.

(** The decimal digits of [n], the last [width] of them. *)
Fixpoint digits (width : nat) (n : Z) : string :=
  match width with
  | O => ""
  | S width' =>
      digits width' (n / 10) ++ String (ascii_of_nat (48 + Z.to_nat (n mod 10))) ""
  end.

(** The day [days] after 1 January 1970 in the proleptic Gregorian
    calendar, as year, month and day of the month. *)
Definition civil_from_days (days : Z) : Z * Z * Z :=
  let z := days + 719468 in
  let era := z / 146097 in
  let doe := z - era * 146097 in
  let yoe := (doe - doe / 1460 + doe / 36524 - doe / 146096) / 365 in
  let doy := doe - (365 * yoe + yoe / 4 - yoe / 100) in
  let mp := (5 * doy + 2) / 153 in
  let d := doy - (153 * mp + 2) / 5 + 1 in
  let m := if mp <? 10 then mp + 3 else mp - 9 in
  let y := yoe + era * 400 + (if m <=? 2 then 1 else 0) in
  (y, m, d).

(** The number of days from 1 January 1970 to the given day. *)
Definition days_from_civil (y m d : Z) : Z :=
  let y := if m <=? 2 then y - 1 else y in
  let era := y / 400 in
  let yoe := y - era * 400 in
  let doy := (153 * (if 2 <? m then m - 3 else m + 9) + 2) / 5 + d - 1 in
  let doe := yoe * 365 + yoe / 4 - yoe / 100 + doy in
  era * 146097 + doe - 719468.

(** [new Date(t).toISOString()] for an instant [t] that a [Date] can
    hold: [YYYY-MM-DDTHH:mm:ss.sssZ], the year with a sign and six digits
    when it is not between 0 and 9999. *)
Definition iso_text (t : Z) : string :=
  let '(y, m, d) := civil_from_days (t / 86400000) in
  let ms := t mod 86400000 in
  let year := if (0 <=? y) && (y <=? 9999) then digits 4 y
              else (if y <? 0 then "-" else "+") ++ digits 6 (Z.abs y) in
  year ++ "-" ++ digits 2 m ++ "-" ++ digits 2 d ++ "T" ++
  digits 2 (ms / 3600000) ++ ":" ++ digits 2 (ms / 60000 mod 60) ++ ":" ++
  digits 2 (ms / 1000 mod 60) ++ "." ++ digits 3 (ms mod 1000) ++ "Z".

Definition digit (c : ascii) : option Z :=
  let n := nat_of_ascii c in
  if (48 <=? n)%nat && (n <=? 57)%nat then Some (Z.of_nat (n - 48)) else None.

(** The decimal number that the characters spell. *)
Fixpoint number (cs : list ascii) (acc : Z) : option Z :=
  match cs with
  | [] => Some acc
  | c :: cs' => match digit c with
                | Some n => number cs' (acc * 10 + n)
                | None => None
                end
  end.

Definition days_in_month (y m : Z) : Z :=
  if m =? 2 then
    if ((y mod 4 =? 0) && negb (y mod 100 =? 0)) || (y mod 400 =? 0) then 29 else 28
  else if (m =? 4) || (m =? 6) || (m =? 9) || (m =? 11) then 30
  else 31.

(** The date-only form [YYYY-MM-DD] of the date-time string format: the
    start of that day, in UTC. *)
Definition parse_date_only (s : string) : option Z :=
  let cs := String.list_ascii_of_string s in
  if negb (Nat.eqb (length cs) 10) then None
  else if negb (bool_decide (cs !! 4%nat = Some "-"%char ∧ cs !! 7%nat = Some "-"%char))
  then None
  else
    y ← number (take 4 cs) 0;
    m ← number (take 2 (drop 5 cs)) 0;
    d ← number (take 2 (drop 8 cs)) 0;
    if (1 <=? m) && (m <=? 12) && (1 <=? d) && (d <=? days_in_month y m)
    then Some (days_from_civil y m d * 86400000)
    else None.

(** A thrown [Error] is represented by its message. *)
Inductive result (A : Type) :=
| Ok (a : A)
| Throw (message : string).
Arguments Ok {A} a.
Arguments Throw {A} message.

(** [String(v)], as template literals apply it. *)
Definition to_string (v : val) : string :=
  match v with
  | VUndef => "undefined"
  | VNull => "null"
  | VBool b => if b then "true" else "false"
  | VNum n => pretty n
  | VStr s => s
  | VIso t => iso_text t
  | VRef _ => "[object Object]"
  end.

(** Objects are finite maps from property names to values; the heap
    holds every object that can be reached through a reference. *)
Abbreviation obj := (gmap string val).
Abbreviation heap := (gmap loc obj).

(** [new] object: stored at an address the heap does not use yet. *)
Definition alloc (o : obj) (h : heap) : loc * heap :=
  let l := fresh (dom h) in (l, <[l := o]> h).

(** [v.k] for a value that is not [null] or [undefined]: a property of
    the referenced object, [undefined] when the object has no such
    property or when [v] is a primitive (none of the property names the
    code reads is a built-in property of a string, number or boolean). *)
Definition get_prop (h : heap) (v : val) (k : string) : val :=
  match v with
  | VRef l => match h !! l with
              | Some o => default VUndef (o !! k)
              | None => VUndef
              end
  | _ => VUndef
  end.

(** [v.k] for any value: a [TypeError] on [undefined] and [null]. *)
Definition read (h : heap) (v : val) (k : string) : result val :=
  match v with
  | VUndef | VNull =>
      Throw ("Cannot read properties of " ++ to_string v ++ " (reading '" ++ k ++ "')")
  | _ => Ok (get_prop h v k)
  end.

(** The own enumerable properties of a string: its characters, by
    index. *)
Definition char_properties (s : string) : obj :=
  list_to_map (imap (fun i c => (pretty i, VStr (String c ""))) (String.list_ascii_of_string s)).

(** The own enumerable properties of [v], as [Object.assign(target, v)]
    copies them and [Object.keys(v)] lists them ([Object.keys] throws on
    [null] and [undefined], [Object.assign] skips them). *)
Definition own_properties (h : heap) (v : val) : obj :=
  match v with
  | VRef l => default ∅ (h !! l)
  | VStr s => char_properties s
  | VIso t => char_properties (iso_text t)
  | VUndef | VNull | VBool _ | VNum _ => ∅
  end.

(** No chain of [depth] references starts at [v]. *)
Fixpoint shallower (depth : nat) (h : heap) (v : val) {struct depth} : bool :=
  match v with
  | VRef l =>
      match depth with
      | O => false
      | S depth' =>
          match h !! l with
          | Some o => forallb (fun kv => shallower depth' h kv.2) (map_to_list o)
          | None => true
          end
      end
  | _ => true
  end.

(** [JSON.stringify(v)] throws [TypeError: Converting circular
    structure to JSON]: an object is reached from [v] that contains
    itself.  A chain of more references than the heap has objects goes
    through one of them twice. *)
Definition circular (h : heap) (v : val) : bool := negb (shallower (S (size h)) h v).

Definition circular_message : string := "Converting circular structure to JSON".

(** [o.k = v] on the object at [l]. *)
Definition set_prop (l : loc) (k : string) (v : val) (h : heap) : heap :=
  match h !! l with
  | Some o => <[l := <[k := v]> o]> h
  | None => h
  end.

(** An insertion-ordered [Map] with string keys. *)
Section OrderedMap.
Context {V : Type}.

Fixpoint map_get (k : string) (m : list (string * V)) : option V :=
  match m with
  | [] => None
  | (k', v) :: m' => if String.eqb k' k then Some v else map_get k m'
  end.

(** [Map.prototype.set]: replaces in place, or appends a new entry. *)
Fixpoint map_set (k : string) (v : V) (m : list (string * V)) : list (string * V) :=
  match m with
  | [] => [(k, v)]
  | (k', v') :: m' =>
      if String.eqb k' k then (k', v) :: m' else (k', v') :: map_set k v m'
  end.

Definition map_keys (m : list (string * V)) : list string := m.*1.
Definition map_values (m : list (string * V)) : list V := m.*2.
End OrderedMap.

End JS.

Import JS.


(** ** utils/job-manager.js *)

Module JobManager.

(** [this.jobs] is a [Map] from job ids to job objects.  No method hands
    out or stores elsewhere a reference to one of these job objects, so
    they are kept by value in the map; every object that can be shared
    (the nested [request], [result] and [error] objects, the copies the
    accessors return, the arguments of the callers) lives in [objects].

    A method that changes the store returns what the call ends with,
    [Ok] or the exception it throws, together with the store it leaves:
    an exception can come after the job has been changed. *)
Record t := mk {
  jobs : list (string * obj);
  objects : heap
}.

(** [new JobManager()] *)
Definition empty : t := {| jobs := []; objects := ∅ |}.

Definition statuses : list val :=
  [VStr "pending"; VStr "processing"; VStr "completed"; VStr "failed"].

Definition request_keys : list string :=
  ["tweetBody"; "profilePhotoUrl"; "profileName"; "username"; "theme"].

Definition result_keys : list string :=
  ["filename"; "downloadUrl"; "expiresAt"; "fileSize"; "duration"; "resolution"].

(** [{ k: data.k || null, ... }] for the listed keys. *)
Definition pick_or_null (h : heap) (data : val) (keys : list string) : obj :=
  list_to_map ((fun k => (k, or_else (get_prop h data k) VNull)) <$> keys).

(** [jobId] is the identifier that [uuidv4()] returns, [now] the reading
    of the clock. *)
Definition createJob (requestData : val) (jobId : string) (now : Z) (st : t)
  : result string * t :=
  if negb (truthy requestData) then
    (Throw "Request data is required to create a job", st)
  else
    let '(r, h) := alloc (pick_or_null (objects st) requestData request_keys) (objects st) in
    let job : obj := list_to_map
      [ ("jobId", VStr jobId);
        ("status", VStr "pending");
        ("createdAt", VIso now);
        ("updatedAt", VIso now);
        ("completedAt", VNull);
        ("request", VRef r);
        ("result", VNull);
        ("error", VNull);
        ("currentStep", VNull);
        ("progress", VNum 0) ] in
    let st' := {| jobs := map_set jobId job (jobs st); objects := h |} in
    (* console.log(..., JSON.stringify(job.request, null, 2)) *)
    if circular h (VRef r) then (Throw circular_message, st')
    else (Ok jobId, st').

(** [{ ...job }]: a new object with the same property values. *)
Definition copy (job : obj) (h : heap) : val * heap :=
  let '(l, h') := alloc job h in (VRef l, h').

Definition getJob (jobId : string) (st : t) : val * t :=
  if String.eqb jobId "" then (VNull, st)
  else match map_get jobId (jobs st) with
       | None => (VNull, st)
       | Some job =>
           let '(v, h) := copy job (objects st) in
           (v, {| jobs := jobs st; objects := h |})
       end.

(** [additionalData] is [undefined] when the caller leaves it out, and
    then stands for a new empty object; [now] and [now'] are the two
    readings of the clock. *)
Definition updateJobStatus (jobId : string) (status additionalData : val)
    (now now' : Z) (st : t) : result unit * t :=
  if String.eqb jobId "" then (Throw "jobId is required", st)
  else if negb (bool_decide (status ∈ statuses)) then
    (Throw ("Invalid status: " ++ to_string status ++
            ". Must be one of: pending, processing, completed, failed"), st)
  else match map_get jobId (jobs st) with
       | None => (Throw ("Job " ++ jobId ++ " not found"), st)
       | Some job =>
           let job1 := <["updatedAt" := VIso now]> (<["status" := status]> job) in
           (* Object.assign(job, additionalData) *)
           let job2 := own_properties (objects st) additionalData ∪ job1 in
           let job3 :=
             if (bool_decide (status = VStr "completed") || bool_decide (status = VStr "failed"))
                && negb (truthy (default VUndef (job2 !! "completedAt")))
             then <["completedAt" := VIso now']> job2
             else job2 in
           let st' := {| jobs := map_set jobId job3 (jobs st); objects := objects st |} in
           (* if (Object.keys(additionalData).length > 0)
                console.log(..., JSON.stringify(additionalData, null, 2)) *)
           match additionalData with
           | VNull => (Throw "Cannot convert undefined or null to object", st')
           | _ =>
               if negb (bool_decide (own_properties (objects st) additionalData = ∅))
                  && circular (objects st) additionalData
               then (Throw circular_message, st')
               else (Ok (), st')
           end
       end.

Definition updateJobProgress (jobId : string) (step percentage : val) (now : Z) (st : t)
  : result unit * t :=
  if String.eqb jobId "" then (Throw "jobId is required", st)
  else match percentage with
       | VNum p =>
           if (p <? 0) || (100 <? p) then
             (Throw ("Invalid percentage: " ++ to_string percentage ++
                     ". Must be between 0 and 100"), st)
           else match map_get jobId (jobs st) with
                | None => (Throw ("Job " ++ jobId ++ " not found"), st)
                | Some job =>
                    let job' := <["updatedAt" := VIso now]>
                                  (<["progress" := percentage]>
                                     (<["currentStep" := step]> job)) in
                    (Ok (), {| jobs := map_set jobId job' (jobs st); objects := objects st |})
                end
       | _ => (Throw ("Invalid percentage: " ++ to_string percentage ++
                      ". Must be between 0 and 100"), st)
       end.

Definition setJobCompleted (jobId : string) (resultData : val) (now : Z) (st : t)
  : result unit * t :=
  if String.eqb jobId "" then (Throw "jobId is required", st)
  else if negb (truthy resultData) then (Throw "resultData is required", st)
  else match map_get jobId (jobs st) with
       | None => (Throw ("Job " ++ jobId ++ " not found"), st)
       | Some job =>
           let '(r, h) := alloc (pick_or_null (objects st) resultData result_keys) (objects st) in
           let job' :=
             <["error" := VNull]>
             (<["result" := VRef r]>
             (<["currentStep" := VStr "Completed"]>
             (<["progress" := VNum 100]>
             (<["completedAt" := VIso now]>
             (<["updatedAt" := VIso now]>
             (<["status" := VStr "completed"]> job)))))) in
           let st' := {| jobs := map_set jobId job' (jobs st); objects := h |} in
           (* console.log(..., JSON.stringify(job.result, null, 2)) *)
           if circular h (VRef r) then (Throw circular_message, st')
           else (Ok (), st')
       end.

(** [errorStack = null]: the parameter is [null] when the caller leaves
    it out or passes [undefined]. *)
Definition setJobFailed (jobId : string) (errorMessage errorStack : val) (now : Z) (st : t)
  : result unit * t :=
  let errorStack := match errorStack with VUndef => VNull | _ => errorStack end in
  if String.eqb jobId "" then (Throw "jobId is required", st)
  else if negb (truthy errorMessage) then (Throw "errorMessage is required", st)
  else match map_get jobId (jobs st) with
       | None => (Throw ("Job " ++ jobId ++ " not found"), st)
       | Some job =>
           let e : obj := list_to_map
             [ ("message", errorMessage); ("stack", errorStack); ("failedAt", VIso now) ] in
           let '(r, h) := alloc e (objects st) in
           let job' :=
             <["result" := VNull]>
             (<["error" := VRef r]>
             (<["completedAt" := VIso now]>
             (<["updatedAt" := VIso now]>
             (<["status" := VStr "failed"]> job)))) in
           (Ok (), {| jobs := map_set jobId job' (jobs st); objects := h |})
       end.

(** [jobs.map(job => ({ ...job }))] *)
Fixpoint copies (js : list obj) (h : heap) : list val * heap :=
  match js with
  | [] => ([], h)
  | job :: js' =>
      let '(v, h1) := copy job h in
      let '(vs, h2) := copies js' h1 in
      (v :: vs, h2)
  end.

Definition getAllJobs (st : t) : list val * t :=
  let '(vs, h) := copies (map_values (jobs st)) (objects st) in
  (vs, {| jobs := jobs st; objects := h |}).

Definition status_of_job (job : obj) : val := default VUndef (job !! "status").

Definition has_status (status : val) (job : obj) : bool :=
  bool_decide (status_of_job job = status).

Definition getJobsByStatus (status : val) (st : t) : result (list val * t) :=
  if negb (truthy status) then Throw "status is required"
  else if negb (bool_decide (status ∈ statuses)) then
    Throw ("Invalid status: " ++ to_string status ++
           ". Must be one of: pending, processing, completed, failed")
  else
    let '(vs, h) := copies (List.filter (has_status status) (map_values (jobs st)))
                           (objects st) in
    Ok (vs, {| jobs := jobs st; objects := h |}).

(** [new Date(job.createdAt) < cutoffTime]: false when one of the two
    dates is invalid. *)
Definition created_before `{Engine} (cutoffTime : option Z) (job : obj) : bool :=
  match date_of (default VUndef (job !! "createdAt")), cutoffTime with
  | Some c, Some cutoff => c <? cutoff
  | _, _ => false
  end.

Definition cleanupExpiredJobs `{Engine} (olderThanHours : val) (now : Z) (st : t)
  : result (Z * t) :=
  match olderThanHours with
  | VNum hours =>
      if hours <=? 0 then
        Throw ("Invalid olderThanHours: " ++ to_string olderThanHours ++
               ". Must be a positive number")
      else
        let cutoffTime := time_clip (now - hours * 60 * 60 * 1000) in
        let kept := List.filter (fun p => negb (created_before cutoffTime p.2)) (jobs st) in
        let removedCount := Z.of_nat (length (jobs st)) - Z.of_nat (length kept) in
        Ok (removedCount, {| jobs := kept; objects := objects st |})
  | _ => Throw ("Invalid olderThanHours: " ++ to_string olderThanHours ++
                ". Must be a positive number")
  end.

(** Reading the store. *)
Definition job_of (st : t) (jobId : string) : option obj := map_get jobId (jobs st).

Definition field_of (st : t) (jobId k : string) : option val :=
  job ← job_of st jobId; job !! k.

Definition status_of (st : t) (jobId : string) : option val := field_of st jobId "status".

Definition terminal (s : val) : Prop := s = VStr "completed" ∨ s = VStr "failed".

(** [job.k.k'] of the canonical record, for a nested object. *)
Definition nested_field_of (st : t) (jobId k k' : string) : val :=
  get_prop (objects st) (default VUndef (field_of st jobId k)) k'.

(** Code outside the job manager assigns [o.k = v], where [o] is an
    object it holds a reference to. *)
Definition assign (o : val) (k : string) (v : val) (st : t) : t :=
  match o with
  | VRef l => {| jobs := jobs st; objects := set_prop l k v (objects st) |}
  | _ => st
  end.

(** The three operations that change a job's status, as data, so that
    sequences of them can be run; the caller goes on with the store that
    a call leaves, whether the call returns or throws. *)
Inductive op :=
| UpdateJobStatus (jobId : string) (status additionalData : val) (now now' : Z)
| SetJobCompleted (jobId : string) (resultData : val) (now : Z)
| SetJobFailed (jobId : string) (errorMessage errorStack : val) (now : Z).

Definition call (o : op) (st : t) : result unit * t :=
  match o with
  | UpdateJobStatus jobId status additionalData now now' =>
      updateJobStatus jobId status additionalData now now' st
  | SetJobCompleted jobId resultData now => setJobCompleted jobId resultData now st
  | SetJobFailed jobId errorMessage errorStack now =>
      setJobFailed jobId errorMessage errorStack now st
  end.

Definition apply (o : op) (st : t) : t := (call o st).2.

Definition run (ops : list op) (st : t) : t := foldl (fun s o => apply o s) st ops.

(** *** Vocabulary for the properties *)

(** The job that a call names. *)
Definition target (o : op) : string :=
  match o with
  | UpdateJobStatus jobId _ _ _ _ | SetJobCompleted jobId _ _ | SetJobFailed jobId _ _ _ => jobId
  end.

(** The status that a call asks for: the status argument of
    [updateJobStatus], and the status that the two setters are named
    after. *)
Definition requested (o : op) : val :=
  match o with
  | UpdateJobStatus _ status _ _ _ => status
  | SetJobCompleted _ _ _ => VStr "completed"
  | SetJobFailed _ _ _ _ => VStr "failed"
  end.

(** The [status] property of the additional data of a call of
    [updateJobStatus], when the data has one. *)
Definition patch_status (h : heap) (o : op) : option val :=
  match o with
  | UpdateJobStatus _ _ additionalData _ _ => own_properties h additionalData !! "status"
  | _ => None
  end.

(** The arguments that a call is documented to take: a job id that is
    not empty, one of the four statuses, result data, an error
    message. *)
Definition well_formed (o : op) : Prop :=
  target o ≠ "" ∧
  match o with
  | UpdateJobStatus _ status _ _ _ =>
      status = VStr "pending" ∨ status = VStr "processing" ∨
      status = VStr "completed" ∨ status = VStr "failed"
  | SetJobCompleted _ resultData _ => truthy resultData = true
  | SetJobFailed _ errorMessage _ _ => truthy errorMessage = true
  end.

#[global] Instance well_formed_dec o : Decision (well_formed o).
Proof. unfold well_formed. destruct o; apply _. Defined.

(** The store in which the job [jobId] has become [job'] and the heap
    [h]. *)
Definition changed (jobId : string) (job' : obj) (h : heap) (st : t) : t :=
  {| jobs := map_set jobId job' (jobs st); objects := h |}.

(** A call on the job [jobId] asks for the status [s], and its
    additional data carries no other status. *)
Definition asks_for (s : val) (jobId : string) (h : heap) (o : op) : Prop :=
  target o = jobId →
  requested o = s ∧ ∀ s', patch_status h o = Some s' → s' = s.

(** Every call of the sequence does, in the store it is made on. *)
Fixpoint keeps (s : val) (jobId : string) (ops : list op) (st : t) : Prop :=
  match ops with
  | [] => True
  | o :: ops' => asks_for s jobId (objects st) o ∧ keeps s jobId ops' (apply o st)
  end.

End JobManager.


(** ** Node's [path] module (POSIX) and file system *)

Module Path.

Definition slash : ascii := "/"%char.

Definition is_slash (c : ascii) : bool := Ascii.eqb c slash.

Fixpoint take_until_slash (l : list ascii) : list ascii :=
  match l with
  | [] => []
  | c :: l' => if is_slash c then [] else c :: take_until_slash l'
  end.

Fixpoint drop_slashes (l : list ascii) : list ascii :=
  match l with
  | [] => []
  | c :: l' => if is_slash c then drop_slashes l' else l
  end.

(** [path.basename(p)]: scanning from the end, the trailing slashes are
    skipped and the characters up to the next slash are returned. *)
Definition basename (p : string) : string :=
  String.string_of_list_ascii
    (rev (take_until_slash (drop_slashes (rev (String.list_ascii_of_string p))))).

(** An absolute, normalised path is the list of its segments. *)
Abbreviation path := (list string).

(** [path.join(dir, name)] for a [name] without separator, which is what
    [basename] returns: the empty name and [.] denote [dir] itself,
    [..] its parent, any other name an entry of [dir]. *)
Definition join (dir : path) (name : string) : path :=
  if String.eqb name "" then dir
  else if String.eqb name "." then dir
  else if String.eqb name ".." then removelast dir
  else app dir [name].

(** [`${p}${ext}`]: the text is appended to the last segment. *)
Definition add_extension (p : path) (ext : string) : path :=
  match last p with
  | Some name => app (removelast p) [name ++ ext]
  | None => [ext]
  end.

(** [s.endsWith(suffix)] *)
Fixpoint ends_with (s suffix : string) : bool :=
  if String.eqb s suffix then true
  else match s with
       | EmptyString => false
       | String _ s' => ends_with s' suffix
       end.

(** The names a directory can hold. *)
Definition file_name (n : string) : Prop :=
  n ≠ "" ∧ n ≠ "." ∧ n ≠ ".." ∧ slash ∉ String.list_ascii_of_string n.

#[global] Instance file_name_dec n : Decision (file_name n).
Proof. unfold file_name. apply _. Defined.

(** [p] lies inside the directory [dir]: below it, and not [dir] itself. *)
Definition inside (dir p : path) : Prop := ∃ name rest, p = app dir (name :: rest).

#[global] Instance inside_dec dir p : Decision (inside dir p).
Proof.
  refine (cast_if (decide (take (length dir) p = dir ∧ (length dir < length p)%nat)));
    unfold inside.
  - destruct a as [Ht Hl]. rewrite <- (take_drop (length dir) p), Ht.
    destruct (drop (length dir) p) as [|name rest] eqn:Hd.
    + apply (f_equal length) in Hd. rewrite length_drop in Hd. simpl in Hd. lia.
    + eauto.
  - intros (name & rest & ->). apply n. split.
    + by rewrite take_app_length.
    + rewrite length_app. simpl. lia.
Defined.

End Path.

Module FS.
Import Path.

(** What a regular file holds: the bytes of a payload, or the JSON text
    of an object.  Payload bytes are taken not to parse as JSON. *)
Inductive content :=
| Data (bytes : list Byte.byte)
| Json (o : obj).

(** The regular files, by absolute path.  Directories are implicit. *)
Abbreviation files := (gmap path content).

Inductive error := ENOENT | EISDIR.

(** [error.message]; the code tests [error.code === 'ENOENT']. *)
Definition message (e : error) : string :=
  match e with
  | ENOENT => "ENOENT: no such file or directory"
  | EISDIR => "EISDIR: illegal operation on a directory"
  end.

Section Ops.
(** The directories that exist: the storage directory, once
    [fs.mkdir(storagePath, { recursive: true })] has run, and the
    directories above it.  The calls fail with [ENOENT] and [EISDIR]
    only; other input/output failures are not modelled. *)
Variable root : path.

Definition is_directory (p : path) : bool := bool_decide (p `prefix_of` root).

Definition writeFile (p : path) (c : content) (fs : files) : error + files :=
  if is_directory p then inl EISDIR else inr (<[p := c]> fs).

Definition readFile (p : path) (fs : files) : error + content :=
  if is_directory p then inl EISDIR
  else match fs !! p with Some c => inr c | None => inl ENOENT end.

Definition unlink (p : path) (fs : files) : error + files :=
  if is_directory p then inl EISDIR
  else match fs !! p with Some _ => inr (delete p fs) | None => inl ENOENT end.

Definition access (p : path) (fs : files) : error + unit :=
  if is_directory p then inr tt
  else match fs !! p with Some _ => inr tt | None => inl ENOENT end.

(** The name of the file at [p] when it is directly in [root]. *)
Definition entry_of (p : path) : option string :=
  match last p with
  | Some name => if bool_decide (p = app root [name]) then Some name else None
  | None => None
  end.

(** [fs.readdir(root)]: the names of the files directly in [root]. *)
Definition readdir (fs : files) : list string :=
  omap entry_of (map_to_list fs).*1.
End Ops.

End FS.

(** ** utils/storage/local.js *)

Module LocalStorage.
Import Path FS.

Record t := mk {
  storagePath : path;
  ttlHours : Z
}.

(** [new LocalStorageProvider(config)], a missing option being
    [undefined].  Whole hours only. *)
Definition create (storagePath : option path) (ttlHours : val) : t :=
  {| storagePath := default ["data"; "videos"] storagePath;
     ttlHours := match or_else ttlHours (VNum 24) with VNum h => h | _ => 24 end |}.

Section Provider.
Context {E : Engine}.
Variable self : t.

Definition _getFilePath (filename : string) : result path :=
  if String.eqb filename "" then Throw "Filename is required"
  else
    let sanitized := basename filename in
    Ok (join (storagePath self) sanitized).

Definition _getMetadataPath (filename : string) : result path :=
  match _getFilePath filename with
  | Ok p => Ok (add_extension p ".meta.json")
  | Throw m => Throw m
  end.

(** [now] is the reading of the clock by [new Date()]; [metadata] is an
    object, so that [!metadata] is false.  The comparison is false when
    [createdAt] or [expiresAt] is an invalid date. *)
Definition _isExpired (metadata : obj) (now : Z) : bool :=
  let createdAt := default VUndef (metadata !! "createdAt") in
  if negb (truthy createdAt) then false
  else
    let createdAt := date_of createdAt in
    let expiresAt := created ← createdAt; time_clip (created + ttlHours self * 60 * 60 * 1000) in
    match expiresAt with
    | Some expiresAt => expiresAt <? now   (* now > expiresAt *)
    | None => false
    end.

(** [JSON.stringify] leaves out the properties that are [undefined]. *)
Definition json_of (o : obj) : obj := filter (fun kv => kv.2 ≠ VUndef) o.

Record saved := {
  saved_path : path;
  saved_size : Z;
  saved_filename : string;
  saved_metadata : obj
}.

(** [buffer] is [None] for an argument that is not a [Buffer];
    [now] and [now'] are the two readings of the clock. *)
Definition save (filename : string) (buffer : option (list Byte.byte)) (metadata : obj)
    (now now' : Z) (fs : files) : result saved * files :=
  if String.eqb filename "" then (Throw "Filename is required", fs)
  else match buffer with
  | None => (Throw "Buffer is required and must be a Buffer instance", fs)
  | Some bytes =>
      let sanitizedFilename := basename filename in
      match _getFilePath sanitizedFilename, _getMetadataPath sanitizedFilename with
      | Ok filePath, Ok metadataPath =>
          match writeFile (storagePath self) filePath (Data bytes) fs with
          | inl e => (Throw ("Failed to save file: " ++ message e), fs)
          | inr fs1 =>
              let size := Z.of_nat (length bytes) in
              (* toISOString throws a RangeError on an invalid date *)
              match time_clip (now' + ttlHours self * 60 * 60 * 1000) with
              | None => (Throw "Failed to save file: Invalid time value", fs1)
              | Some expiresAt =>
                  let defaults : obj := list_to_map
                    [ ("filename", VStr sanitizedFilename);
                      ("size", VNum size);
                      ("createdAt", VIso now);
                      ("updatedAt", VIso now);
                      ("expiresAt", VIso expiresAt);
                      ("ttlHours", VNum (ttlHours self)) ] in
                  let fileMetadata := metadata ∪ defaults in
                  match writeFile (storagePath self) metadataPath
                          (Json (json_of fileMetadata)) fs1 with
                  | inl e => (Throw ("Failed to save file: " ++ message e), fs1)
                  | inr fs2 =>
                      (Ok {| saved_path := filePath; saved_size := size;
                             saved_filename := sanitizedFilename;
                             saved_metadata := fileMetadata |}, fs2)
                  end
              end
          end
      | Throw m, _ | _, Throw m => (Throw m, fs)
      end
  end.

Definition getMetadata (filename : string) (fs : files) : result obj :=
  if String.eqb filename "" then Throw "Filename is required"
  else match _getMetadataPath filename with
  | Throw m => Throw m
  | Ok metadataPath =>
      match readFile (storagePath self) metadataPath fs with
      | inr (Json metadata) => Ok metadata
      | inr (Data _) => Throw "Failed to retrieve metadata: Unexpected token in JSON"
      | inl ENOENT => Throw ("Metadata not found: " ++ filename)
      | inl e => Throw ("Failed to retrieve metadata: " ++ message e)
      end
  end.

(** [delete(filename)]; the plain name is the one of the deletion in
    finite maps. *)
Definition delete_ (filename : string) (fs : files) : result bool * files :=
  if String.eqb filename "" then (Throw "Filename is required", fs)
  else match _getFilePath filename, _getMetadataPath filename with
  | Ok filePath, Ok metadataPath =>
      match unlink (storagePath self) filePath fs with
      | inl EISDIR => (Throw ("Failed to delete file: " ++ message EISDIR), fs)
      | r1 =>
          let '(deletedFile, fs1) :=
            match r1 with inr fs1 => (true, fs1) | inl _ => (false, fs) end in
          match unlink (storagePath self) metadataPath fs1 with
          | inl EISDIR => (Throw ("Failed to delete file: " ++ message EISDIR), fs1)
          | r2 =>
              let '(deletedMetadata, fs2) :=
                match r2 with inr fs2 => (true, fs2) | inl _ => (false, fs1) end in
              (Ok (deletedFile || deletedMetadata), fs2)
          end
      end
  | Throw m, _ | _, Throw m => (Throw m, fs)
  end.

Definition get (filename : string) (now : Z) (fs : files) : result content * files :=
  if String.eqb filename "" then (Throw "Filename is required", fs)
  else match _getFilePath filename with
  | Throw m => (Throw m, fs)
  | Ok filePath =>
      match getMetadata filename fs with
      | Throw m => (Throw m, fs)
      | Ok metadata =>
          if _isExpired metadata now then
            match delete_ filename fs with
            | (Ok _, fs') => (Throw ("File has expired: " ++ filename), fs')
            | (Throw m, fs') => (Throw m, fs')
            end
          else match readFile (storagePath self) filePath fs with
               | inr buffer => (Ok buffer, fs)
               | inl ENOENT => (Throw ("File not found: " ++ filename), fs)
               | inl e => (Throw (message e), fs)
               end
      end
  end.

Definition exists_ (filename : string) (fs : files) : result bool :=
  if String.eqb filename "" then Throw "Filename is required"
  else match _getFilePath filename with
  | Throw m => Throw m
  | Ok filePath =>
      match access (storagePath self) filePath fs with
      | inr _ => Ok true
      | inl ENOENT => Ok false
      | inl e => Throw ("Failed to check file existence: " ++ message e)
      end
  end.

Definition is_video_file (f : string) : bool := negb (ends_with f ".meta.json").

(** One turn of the loop of [cleanupExpiredFiles]; an exception of
    [getMetadata] or [delete] is caught and the loop goes on. *)
Definition cleanup_step (now : Z) (acc : Z * files) (filename : string) : Z * files :=
  let '(deletedCount, fs) := acc in
  match getMetadata filename fs with
  | Throw _ => (deletedCount, fs)
  | Ok metadata =>
      if _isExpired metadata now then
        match delete_ filename fs with
        | (Ok _, fs') => (deletedCount + 1, fs')
        | (Throw _, fs') => (deletedCount, fs')
        end
      else (deletedCount, fs)
  end.

Definition cleanupExpiredFiles (now : Z) (fs : files) : result Z * files :=
  let allFiles := readdir (storagePath self) fs in
  let videoFiles := List.filter is_video_file allFiles in
  let '(deletedCount, fs') := foldl (cleanup_step now) (0, fs) videoFiles in
  (Ok deletedCount, fs').

(** *** Vocabulary for the properties *)

(** Where the payload and the metadata record of an artifact are. *)
Definition payload_path (name : string) : path := app (storagePath self) [name].
Definition metadata_path (name : string) : path :=
  app (storagePath self) [name ++ ".meta.json"].

(** The stored artifacts: the entries of the storage directory that
    are not metadata records. *)
Definition artifacts (fs : files) : list string :=
  List.filter is_video_file (readdir (storagePath self) fs).

(** What [cleanupExpiredFiles] finds out about an entry: its metadata
    can be read and [_isExpired] holds of it. *)
Definition ttl_expired (now : Z) (fs : files) (name : string) : bool :=
  match getMetadata name fs with
  | Ok metadata => _isExpired metadata now
  | Throw _ => false
  end.

(** The artifact [name] has outlived the time-to-live of this provider
    at the instant [now]: its metadata record is a JSON object whose
    [createdAt] is set and is a date, and that date plus [ttlHours]
    hours is a date before [now]. *)
Definition outlived (now : Z) (fs : files) (name : string) : Prop :=
  ∃ metadata createdAt created,
    fs !! metadata_path name = Some (Json metadata)
    ∧ metadata !! "createdAt" = Some createdAt
    ∧ truthy createdAt = true
    ∧ date_of createdAt = Some created
    ∧ Z.abs (created + ttlHours self * 3600000) ≤ MAX_TIME
    ∧ created + ttlHours self * 3600000 < now.

(** The artifacts that are stored: the files of the storage directory
    whose name does not end in [.meta.json]. *)
Definition stored (fs : files) (name : string) : Prop :=
  is_Some (fs !! payload_path name) ∧ ends_with name ".meta.json" = false.

(** The [expiresAt] that the metadata record of the artifact carries
    has passed, in the words of the specification. *)
Definition recorded_expiry_passed (now : Z) (fs : files) (name : string) : bool :=
  match getMetadata name fs with
  | Ok metadata =>
      match date_of (default VUndef (metadata !! "expiresAt")) with
      | Some expiresAt => expiresAt <? now
      | None => false
      end
  | Throw _ => false
  end.

Definition remove_artifact (fs : files) (name : string) : files :=
  delete (metadata_path name) (delete (payload_path name) fs).

(** Every entry of the storage directory has a name a file can have. *)
Definition directory_ok (fs : files) : Prop :=
  Forall file_name (readdir (storagePath self) fs).

End Provider.

End LocalStorage.

(** ** utils/cleanup-scheduler.js *)

Module CleanupScheduler.

Record t := mk {
  storageProvider : LocalStorage.t;
  intervalMinutes : Z;
  jobRetentionHours : val
}.

(** [new CleanupScheduler(storageProvider, jobManager, intervalMinutes = 60,
    jobRetentionHours = 72)]; the job manager is the store of the world
    below. *)
Definition create (storageProvider : LocalStorage.t) (intervalMinutes jobRetentionHours : option Z) : t :=
  {| storageProvider := storageProvider;
     intervalMinutes := default 60 intervalMinutes;
     jobRetentionHours := VNum (default 72 jobRetentionHours) |}.

(** What the sweep works on. *)
Record world := {
  files : FS.files;
  store : JobManager.t
}.

Record results := {
  filesRemoved : val;
  jobsCleaned : val;
  errors : list string
}.

(** [now] and [now'] are the clock readings of the two sub-calls. *)
Definition cleanup `{Engine} (self : t) (now now' : Z) (w : world) : results * world :=
  let h := JobManager.objects (store w) in
  (* Cleanup expired files from storage *)
  let '(filesResult, files') :=
    LocalStorage.cleanupExpiredFiles (storageProvider self) now (files w) in
  let '(filesRemoved, errors1) :=
    match filesResult with
    | Ok n =>
        match read h (VNum n) "removedCount" with
        | Ok v => (or_else v (VNum 0), [])
        | Throw m => (VNum 0, ["Failed to cleanup expired files: " ++ m])
        end
    | Throw m => (VNum 0, ["Failed to cleanup expired files: " ++ m])
    end in
  (* Cleanup expired jobs from job manager *)
  let '(jobsResult, store') :=
    match JobManager.cleanupExpiredJobs (jobRetentionHours self) now' (store w) with
    | Ok (n, st) => (Ok n, st)
    | Throw m => (Throw m, store w)
    end in
  let '(jobsCleaned, errors2) :=
    match jobsResult with
    | Ok n =>
        match read h (VNum n) "cleanedCount" with
        | Ok v => (or_else v (VNum 0), [])
        | Throw m => (VNum 0, ["Failed to cleanup expired jobs: " ++ m])
        end
    | Throw m => (VNum 0, ["Failed to cleanup expired jobs: " ++ m])
    end in
  ({| filesRemoved := filesRemoved; jobsCleaned := jobsCleaned;
      errors := app errors1 errors2 |},
   {| files := files'; store := store' |}).

End CleanupScheduler.

(** ** The worker: [VideoGenerationWorker] *)

Module Worker.

(** A call of [processJob] is a coroutine; between two of its [await]s it
    runs without interruption.  The phase of a call says which [await]
    it is suspended at. *)
Inductive phase :=
| AwaitRender       (* await templateRenderer.render(...) *)
| AwaitScreenshot   (* await screenshotGenerator.generate(...) *)
| AwaitInitialize   (* await videoComposer.initialize() *)
| AwaitCompose      (* await videoComposer.compose(...) *)
| AwaitReadFile     (* await fs.readFile(videoPath) *)
| AwaitSave         (* await this.storageProvider.save(...) *)
| AwaitCleanup      (* await this._cleanupTempFiles(...), in try or in catch *)
| Settled.          (* returned; the finally callback of processQueue is due *)

#[global] Instance phase_eq_dec : EqDecision phase.
Proof. solve_decision. Defined.

Record t := mk {
  jobManager : JobManager.t;
  maxConcurrentJobs : Z;
  currentJobCount : Z;
  processingJobs : gset string;
  (** the suspended calls of [processJob], by job id *)
  tasks : gmap string phase;
  (** the calls of [processQueue] suspended at
      [await Promise.allSettled(processingPromises)], each with the jobs
      whose promises have not settled yet *)
  pendingTicks : list (gset string)
}.

(** [new VideoGenerationWorker(dependencies)]; [maxConcurrentJobs] is a
    number or [undefined]. *)
Definition create (jobManager : JobManager.t) (maxConcurrentJobs : val) : t :=
  {| jobManager := jobManager;
     maxConcurrentJobs := match or_else maxConcurrentJobs (VNum 2) with VNum n => n | _ => 2 end;
     currentJobCount := 0;
     processingJobs := ∅;
     tasks := ∅;
     pendingTicks := [] |}.

Definition set_jobManager (jm : JobManager.t) (w : t) : t :=
  {| jobManager := jm; maxConcurrentJobs := maxConcurrentJobs w;
     currentJobCount := currentJobCount w; processingJobs := processingJobs w;
     tasks := tasks w; pendingTicks := pendingTicks w |}.

Definition set_currentJobCount (n : Z) (w : t) : t :=
  {| jobManager := jobManager w; maxConcurrentJobs := maxConcurrentJobs w;
     currentJobCount := n; processingJobs := processingJobs w;
     tasks := tasks w; pendingTicks := pendingTicks w |}.

Definition set_processingJobs (s : gset string) (w : t) : t :=
  {| jobManager := jobManager w; maxConcurrentJobs := maxConcurrentJobs w;
     currentJobCount := currentJobCount w; processingJobs := s;
     tasks := tasks w; pendingTicks := pendingTicks w |}.

Definition set_tasks (ts : gmap string phase) (w : t) : t :=
  {| jobManager := jobManager w; maxConcurrentJobs := maxConcurrentJobs w;
     currentJobCount := currentJobCount w; processingJobs := processingJobs w;
     tasks := ts; pendingTicks := pendingTicks w |}.

Definition set_pendingTicks (ps : list (gset string)) (w : t) : t :=
  {| jobManager := jobManager w; maxConcurrentJobs := maxConcurrentJobs w;
     currentJobCount := currentJobCount w; processingJobs := processingJobs w;
     tasks := tasks w; pendingTicks := ps |}.

Definition suspend (jobId : string) (ph : phase) (w : t) : t :=
  set_tasks (<[jobId := ph]> (tasks w)) w.

(** The [catch] block of [processJob], up to its [await]: the job is
    marked failed, an exception of [setJobFailed] being caught and
    logged. *)
Definition job_failed (jobId : string) (message stack : val) (now : Z) (w : t) : t :=
  let jm := (JobManager.setJobFailed jobId message stack now (jobManager w)).2 in
  suspend jobId AwaitCleanup (set_jobManager jm w).

(** An exception thrown inside the [try] block, with the text of its
    stack. *)
Definition thrown (jobId : string) (kind m : string) (now : Z) (w : t) : t :=
  job_failed jobId (VStr m) (VStr (kind ++ ": " ++ m)) now w.

(** A call of the job manager inside the [try] block: an exception leads
    to the [catch] block, otherwise the call goes on with [k]. *)
Definition attempt (jobId : string) (now : Z) (r : result unit * JobManager.t) (w : t)
    (k : t -> t) : t :=
  match r with
  | (Ok _, jm) => k (set_jobManager jm w)
  | (Throw m, jm) => thrown jobId "Error" m now (set_jobManager jm w)
  end.

(** [processJob(jobId)] up to its first [await]. *)
Definition processJob (jobId : string) (now : Z) (w : t) : t :=
  let w := set_currentJobCount (currentJobCount w + 1) w in
  let '(job, jm) := JobManager.getJob jobId (jobManager w) in
  let w := set_jobManager jm w in
  if negb (truthy job) then thrown jobId "Error" ("Job " ++ jobId ++ " not found") now w
  else
    let request := get_prop (JobManager.objects jm) job "request" in
    (* JSON.stringify(job.request, null, 2) *)
    if circular (JobManager.objects jm) request then
      thrown jobId "TypeError" circular_message now w
    else
    attempt jobId now
      (JobManager.updateJobStatus jobId (VStr "processing") VUndef now now (jobManager w)) w
      (fun w =>
    attempt jobId now
      (JobManager.updateJobProgress jobId (VStr "generating_screenshot") (VNum 20) now
         (jobManager w)) w
      (fun w =>
    (* job.request.theme *)
    match read (JobManager.objects jm) request "theme" with
    | Throw m => thrown jobId "TypeError" m now w
    | Ok _ => suspend jobId AwaitRender w
    end)).

(** How an awaited call ends.  [Resolved] carries the object literal
    that the last step hands to [setJobCompleted], built from the locals
    of the call (file name, download URL, expiry, size).  [Rejected]
    carries the [message] and the [stack] of the error; a statement
    between two [await]s that throws has the effect of a rejection of
    the first of them. *)
Inductive outcome :=
| Resolved (resultData : obj)
| Rejected (message stack : val).

(** The promise of a job settles: its id leaves [processingJobs], and
    the calls of [processQueue] that waited for nothing else return. *)
Definition settle (jobId : string) (w : t) : t :=
  set_pendingTicks
    (List.filter (fun s => negb (bool_decide (s = ∅)))
                 ((fun s => s ∖ {[jobId]}) <$> pendingTicks w))
    (set_tasks (delete jobId (tasks w))
       (set_processingJobs (processingJobs w ∖ {[jobId]}) w)).

(** The suspended call for [jobId] goes on, up to its next [await]. *)
Definition resume (jobId : string) (o : outcome) (now : Z) (w : t) : t :=
  match tasks w !! jobId with
  | None => w
  | Some Settled => settle jobId w
  | Some AwaitCleanup =>
      (* finally { this.currentJobCount--; } *)
      suspend jobId Settled (set_currentJobCount (currentJobCount w - 1) w)
  | Some ph =>
      match o with
      | Rejected message stack => job_failed jobId message stack now w
      | Resolved resultData =>
          match ph with
          | AwaitRender => suspend jobId AwaitScreenshot w
          | AwaitScreenshot =>
              attempt jobId now
                (JobManager.updateJobProgress jobId (VStr "composing_video") (VNum 60) now
                   (jobManager w)) w
                (suspend jobId AwaitInitialize)
          | AwaitInitialize => suspend jobId AwaitCompose w
          | AwaitCompose =>
              attempt jobId now
                (JobManager.updateJobProgress jobId (VStr "saving_file") (VNum 80) now
                   (jobManager w)) w
                (suspend jobId AwaitReadFile)
          | AwaitReadFile => suspend jobId AwaitSave w
          | AwaitSave =>
              let jm := jobManager w in
              let '(r, h) := alloc resultData (JobManager.objects jm) in
              let jm1 := {| JobManager.jobs := JobManager.jobs jm; JobManager.objects := h |} in
              attempt jobId now
                (JobManager.setJobCompleted jobId (VRef r) now jm1) (set_jobManager jm1 w)
                (suspend jobId AwaitCleanup)
          | AwaitCleanup | Settled => w
          end
      end
  end.

(** The callback that [processQueue] maps over [jobsToProcess]. *)
Definition launch (now : Z) (acc : t * list string) (job : val) : t * list string :=
  let '(w, launched) := acc in
  let jobId := to_string (get_prop (JobManager.objects (jobManager w)) job "jobId") in
  if bool_decide (jobId ∈ processingJobs w) then (w, launched)
  else
    (processJob jobId now (set_processingJobs ({[jobId]} ∪ processingJobs w) w),
     app launched [jobId]).

(** [processQueue()] up to [await Promise.allSettled(processingPromises)]. *)
Definition processQueue (now : Z) (w : t) : t :=
  if maxConcurrentJobs w <=? currentJobCount w then w
  else
    match JobManager.getJobsByStatus (VStr "pending") (jobManager w) with
    | Throw _ => w
    | Ok (pendingJobs, jm) =>
        let w := set_jobManager jm w in
        match pendingJobs with
        | [] => w
        | _ =>
            let availableSlots := maxConcurrentJobs w - currentJobCount w in
            let jobsToProcess := take (Z.to_nat availableSlots) pendingJobs in
            let '(w', launched) := foldl (launch now) (w, []) jobsToProcess in
            match launched with
            | [] => w'
            | _ => set_pendingTicks (app (pendingTicks w') [list_to_set launched]) w'
            end
        end
    end.

(** What happens, one event after the other: the request layer creates
    a job, the poll timer (or [start]) calls [processQueue], an awaited
    call of a job ends, the retention sweep prunes the job store. *)
Inductive event :=
| CreateJob (requestData : val) (jobId : string) (now : Z)
| Tick (now : Z)
| Resume (jobId : string) (o : outcome) (now : Z)
| Sweep (olderThanHours : val) (now : Z).

Definition step `{Engine} (w : t) (e : event) : t :=
  match e with
  | CreateJob requestData jobId now =>
      set_jobManager (JobManager.createJob requestData jobId now (jobManager w)).2 w
  | Tick now => processQueue now w
  | Resume jobId o now => resume jobId o now w
  | Sweep olderThanHours now =>
      match JobManager.cleanupExpiredJobs olderThanHours now (jobManager w) with
      | Ok (_, jm) => set_jobManager jm w
      | Throw _ => w
      end
  end.

Definition run `{Engine} (w : t) (trace : list event) : t := foldl step w trace.

(** *** Vocabulary for the properties *)

(** The jobs of the store that are in status [processing]. *)
Definition processing (w : t) : list string :=
  (List.filter (fun p => JobManager.has_status (VStr "processing") p.2)
               (JobManager.jobs (jobManager w))).*1.

(** The phases before the job is marked completed or failed. *)
Definition running (ph : phase) : Prop := ph ≠ AwaitCleanup ∧ ph ≠ Settled.

(** The calls of [processJob] that have not reached their [finally]. *)
Definition live_of (ts : gmap string phase) : gmap string phase :=
  filter (fun kv => kv.2 ≠ Settled) ts.

Definition live (w : t) : gmap string phase := live_of (tasks w).

(** The bookkeeping of the worker: the counter is the number of calls of
    [processJob] that have not reached their [finally], every suspended
    call is registered in [processingJobs], and every suspended call of
    [processQueue] waits for calls of [processJob] that have not settled. *)
Record accounted (w : t) : Prop := {
  acc_count : currentJobCount w = Z.of_nat (size (live w));
  acc_registered : dom (tasks w) ⊆ processingJobs w;
  acc_ticks : Forall (fun s => s ≠ ∅ ∧ s ⊆ dom (tasks w)) (pendingTicks w)
}.

(** The store and the worker agree: a job in status [processing] has a
    call of [processJob] in a running phase. *)
Record tracked (w : t) : Prop := {
  tr_processing : ∀ jobId,
    JobManager.status_of (jobManager w) jobId = Some (VStr "processing") →
    jobId ≠ "" ∧ ∃ ph, tasks w !! jobId = Some ph ∧ running ph;
  tr_keys : NoDup (map_keys (JobManager.jobs (jobManager w)))
}.

(** No job is in status [processing] in [jm'] that was not in [jm]. *)
Definition quiet (jm jm' : JobManager.t) : Prop :=
  NoDup (map_keys (JobManager.jobs jm)) →
  NoDup (map_keys (JobManager.jobs jm'))
  ∧ ∀ jobId, JobManager.status_of jm' jobId = Some (VStr "processing") →
             JobManager.status_of jm jobId = Some (VStr "processing").

(** The same, except for the job [jobId], whose id is not empty. *)
Definition quiet_but (jobId : string) (jm jm' : JobManager.t) : Prop :=
  NoDup (map_keys (JobManager.jobs jm)) →
  NoDup (map_keys (JobManager.jobs jm'))
  ∧ ∀ jobId', JobManager.status_of jm' jobId' = Some (VStr "processing") →
              (jobId' = jobId ∧ jobId ≠ "") ∨
              JobManager.status_of jm jobId' = Some (VStr "processing").

(** What a call of the job manager by the worker ends with: it returns
    and has changed the store as [P] says; or it has thrown in one of
    its checks, the job id being empty or the job unknown; or it has
    thrown after it changed the store. *)
Definition ends (P : JobManager.t → Prop) (jobId : string) (jm : JobManager.t)
    (r : result unit * JobManager.t) : Prop :=
  match r with
  | (Ok _, jm') => P jm'
  | (Throw m, jm') =>
      (jm' = jm ∧ (jobId = "" ∨ JobManager.job_of jm jobId = None))
      ∨ (quiet jm jm' ∧ m ≠ "" ∧ jobId ≠ "")
  end.

(** A failure of a pipeline stage comes with a message, as every [throw]
    of the rendering, composing and storing code does. *)
Definition has_message (e : event) : Prop :=
  match e with
  | Resume _ (Rejected message _) _ => truthy message = true
  | _ => True
  end.

End Worker.

(** ** The signature verifier *)

Module SignatureVerifier.

Definition TIMESTAMP_TOLERANCE_MS : Z := 5 * 60 * 1000.

Definition lower_char (c : ascii) : ascii :=
  let n := nat_of_ascii c in
  if (65 <=? n)%nat && (n <=? 90)%nat then ascii_of_nat (n + 32) else c.

(** [s.toLowerCase()], on ASCII text. *)
Fixpoint toLowerCase (s : string) : string :=
  match s with
  | EmptyString => EmptyString
  | String c s' => String (lower_char c) (toLowerCase s')
  end.

(** What the middleware does with the request: it calls [next()], or it
    answers with a status and a JSON body of two fields. *)
Inductive response :=
| Next
| Status (code : Z) (error message : string).

Section Verifier.

(** Node's [crypto.createHmac('sha256', secret).update(message).digest('hex')],
    [JSON.stringify] for a body that is an object, and [Number] for the
    text of a header ([None] is [NaN]; whole seconds). *)
Variable hmac_sha256_hex : string → string → string.
Variable JSON_stringify : heap → val → string.
Variable Number : string → option Z.

Definition generateSignature (h : heap) (timestamp : string) (body : val) (secret : string)
  : result string :=
  if String.eqb secret "" then Throw "Secret key is required for signature generation"
  else
    let timestampStr := timestamp in
    let bodyStr := match body with
                   | VRef _ | VNull => JSON_stringify h body   (* typeof body === 'object' *)
                   | _ => to_string body
                   end in
    let message := timestampStr ++ ":" ++ bodyStr in
    Ok (hmac_sha256_hex secret message).

(** The two arguments are strings here; the buffers of two strings of
    the same length are compared. *)
Definition timingSafeEqual (a b : string) : bool :=
  if negb (Nat.eqb (String.length a) (String.length b)) then false
  else String.eqb a b.

(** [None] for [{ isValid: true }], the error text otherwise. *)
Definition validateTimestamp (timestamp : string) (now : Z) : option string :=
  match Number timestamp with
  | None => Some "Invalid timestamp format"
  | Some timestampNum =>
      if timestampNum <=? 0 then Some "Invalid timestamp format"
      else
        let timestampMs := timestampNum * 1000 in
        let currentTimeMs := now in
        let timeDifference := Z.abs (currentTimeMs - timestampMs) in
        if TIMESTAMP_TOLERANCE_MS <? timeDifference then
          let minutesOff := (timeDifference + 30000) / 60000 in
          Some ("Timestamp expired or invalid. Off by " ++ pretty minutesOff ++
                " minute(s). Max tolerance: 5 minutes")
        else None
  end.

(** [secret] is [process.env.HMAC_SECRET], [signature] and [timestamp]
    the two headers, [None] when they are missing. *)
Definition verifySignature (secret signature timestamp : option string) (body : val)
    (h : heap) (now : Z) : response :=
  match secret with
  | None | Some "" =>
      Status 500 "Server configuration error" "HMAC authentication not properly configured"
  | Some secret =>
      match signature with
      | None | Some "" =>
          Status 401 "Missing authentication header" "X-Signature header is required"
      | Some signature =>
          match timestamp with
          | None | Some "" =>
              Status 401 "Missing authentication header" "X-Timestamp header is required"
          | Some timestamp =>
              match validateTimestamp timestamp now with
              | Some error => Status 401 "Invalid timestamp" error
              | None =>
                  (* const body = req.body || {} *)
                  let '(body, h) :=
                    if truthy body then (body, h)
                    else let '(l, h') := alloc ∅ h in (VRef l, h') in
                  match generateSignature h timestamp body secret with
                  | Throw _ =>
                      Status 500 "Signature verification error" "Failed to process signature"
                  | Ok expectedSignature =>
                      if timingSafeEqual (toLowerCase signature) (toLowerCase expectedSignature)
                      then Next
                      else Status 401 "Invalid signature" "HMAC signature verification failed"
                  end
              end
          end
      end
  end.

End Verifier.

End SignatureVerifier.

(** ** Concrete inputs *)

Module Examples.

(** An engine that reads the date-only form and no other text. *)
Definition engine : Engine := {| Date_parse := parse_date_only |}.

(** The caller's request object, with one field that is not part of a
    request and one that is missing. *)
Definition request_object : obj := list_to_map
  [ ("tweetBody", VStr "hello"); ("profilePhotoUrl", VStr "https://example.com/a.jpg");
    ("profileName", VStr "John Doe"); ("username", VStr ""); ("admin", VBool true) ].

Definition result_object : obj := list_to_map
  [ ("filename", VStr "video.mp4"); ("downloadUrl", VStr "https://example.com/video.mp4");
    ("expiresAt", VIso 90000000); ("fileSize", VNum 2048576);
    ("duration", VNum 5); ("resolution", VStr "1080x1920") ].

(** A fresh job manager, the two objects above being on the heap. *)
Definition store0 : JobManager.t :=
  {| JobManager.jobs := [];
     JobManager.objects := <[2%positive := result_object]> {[ 1%positive := request_object ]} |}.

Definition after {A} (r : result A) (d : A) : A :=
  match r with Ok a => a | Throw _ => d end.

(** One job, created at instant 1000. *)
Definition store1 : JobManager.t :=
  (JobManager.createJob (VRef 1%positive) "job-1" 1000 store0).2.

(** The job has been completed at instant 2000. *)
Definition store_completed : JobManager.t :=
  JobManager.apply (JobManager.SetJobCompleted "job-1" (VRef 2%positive) 2000) store1.

(** The job has failed at instant 2000. *)
Definition store_failed : JobManager.t :=
  JobManager.apply
    (JobManager.SetJobFailed "job-1" (VStr "Browser crashed") VNull 2000) store1.

Definition hour : Z := 60 * 60 * 1000.

(** Two providers on the same directory, with a time-to-live of 48 and
    of 24 hours. *)
Definition provider48 : LocalStorage.t := LocalStorage.create None (VNum 48).
Definition provider24 : LocalStorage.t := LocalStorage.create None (VNum 24).

Definition payload : list Byte.byte := [Byte.x00; Byte.x01; Byte.x02].

(** [a.mp4], saved at instant 0 with 48 hours to live. *)
Definition files_a : FS.files :=
  (LocalStorage.save provider48 "a.mp4" (Some payload) ∅ 0 0 ∅).2.

(** [b.mp4], saved at instant 0 with 24 hours to live. *)
Definition files_b : FS.files :=
  (LocalStorage.save provider24 "b.mp4" (Some payload) ∅ 0 0 ∅).2.

(** [a.mp4] as above and [c.mp4], saved at instant [hour] with 24 hours
    to live by a caller whose metadata gives [createdAt] as a date
    without time. *)
Definition files_c : FS.files :=
  (LocalStorage.save provider24 "c.mp4" (Some payload)
     {[ "createdAt" := VStr "1970-01-01" ]} hour hour files_a).2.

(** A metadata record next to the storage directory, not in it. *)
Definition files_outside : FS.files :=
  {[ ["data.meta.json"] := FS.Json {[ "secret" := VStr "x" ]} ]}.

Definition scheduler : CleanupScheduler.t :=
  CleanupScheduler.create provider24 None None.

(** One artifact and one job, both old enough to be swept after 100
    hours. *)
Definition world : CleanupScheduler.world :=
  {| CleanupScheduler.files := files_a; CleanupScheduler.store := store1 |}.

(** Three jobs for a worker with two slots, and a tick. *)
Definition three_jobs : list Worker.event :=
  [ Worker.CreateJob (VStr "request") "job-a" 1000;
    Worker.CreateJob (VStr "request") "job-b" 1001;
    Worker.CreateJob (VStr "request") "job-c" 1002;
    Worker.Tick 2000 ].

(** Two jobs for a worker with one slot.  The tick starts job-a, whose
    stages go well until the storage provider rejects [save] with an
    error that has the given message; then job-a reaches its [finally]
    block and its promise settles, and the timer ticks again. *)
Definition failure (message : string) : list Worker.event :=
  [ Worker.CreateJob (VStr "request") "job-a" 1000;
    Worker.CreateJob (VStr "request") "job-b" 1001;
    Worker.Tick 2000;
    Worker.Resume "job-a" (Worker.Resolved ∅) 2100;
    Worker.Resume "job-a" (Worker.Resolved ∅) 2200;
    Worker.Resume "job-a" (Worker.Resolved ∅) 2300;
    Worker.Resume "job-a" (Worker.Resolved ∅) 2400;
    Worker.Resume "job-a" (Worker.Resolved ∅) 2500;
    Worker.Resume "job-a" (Worker.Rejected (VStr message) (VStr "Error")) 3000;
    Worker.Resume "job-a" (Worker.Resolved ∅) 3100;
    Worker.Resume "job-a" (Worker.Resolved ∅) 3100;
    Worker.Tick 4000 ].

(** The error has no message, as [new Error()] has. *)
Definition silent_failure : list Worker.event := failure "".

(** The error has a message. *)
Definition loud_failure : list Worker.event := failure "Upload refused".

(** Then job-a fails at its first stage and reaches its [finally]
    block, and the timer ticks again. *)
Definition trace : list Worker.event :=
  app three_jobs
    [ Worker.Resume "job-a"
        (Worker.Rejected (VStr "Failed to generate screenshot: timeout") (VStr "Error")) 3000;
      Worker.Resume "job-a" (Worker.Resolved ∅) 3100;
      Worker.Tick 4000 ].

(** After the tick, job-a runs to its end: it fails, its temporary
    files are cleaned up, its [finally] block runs, its promise
    settles. *)
Definition job_a_settles : list Worker.event :=
  app three_jobs
    [ Worker.Resume "job-a"
        (Worker.Rejected (VStr "Failed to generate screenshot: timeout") (VStr "Error")) 3000;
      Worker.Resume "job-a" (Worker.Resolved ∅) 3100;
      Worker.Resume "job-a" (Worker.Resolved ∅) 3100 ].

(** Then job-b does the same. *)
Definition job_b_settles : list Worker.event :=
  app job_a_settles
    [ Worker.Resume "job-b"
        (Worker.Rejected (VStr "Failed to generate screenshot: timeout") (VStr "Error")) 3200;
      Worker.Resume "job-b" (Worker.Resolved ∅) 3300;
      Worker.Resume "job-b" (Worker.Resolved ∅) 3300 ].

End Examples.

(** * Properties *)

(** ** The insertion-ordered map *)

Section OrderedMapFacts.
Context {V : Type}.
Implicit Types (m : list (string * V)) (k : string) (v : V).

Lemma map_get_set_eq m k v : map_get k (map_set k v m) = Some v.
Proof.
  induction m as [|[k' v'] m IH]; simpl.
  - by rewrite String.eqb_refl.
  - destruct (String.eqb_spec k' k) as [->|Hne]; simpl.
    + by rewrite String.eqb_refl.
    + destruct (String.eqb_spec k' k); [done|apply IH].
Qed.

Lemma map_get_set_ne m k k' v : k ≠ k' → map_get k' (map_set k v m) = map_get k' m.
Proof.
  intros Hne. induction m as [|[k0 v0] m IH]; simpl.
  - destruct (String.eqb_spec k k'); [done|]. done.
  - destruct (String.eqb_spec k0 k) as [->|Hk]; simpl.
    + destruct (String.eqb_spec k k'); [done|]. done.
    + destruct (String.eqb_spec k0 k'); [done|apply IH].
Qed.

Lemma map_get_Some_elem m k v : map_get k m = Some v → (k, v) ∈ m.
Proof.
  induction m as [|[k0 v0] m IH]; simpl; [done|].
  destruct (String.eqb_spec k0 k) as [->|Hk].
  - intros [= ->]. left.
  - intros H. right. by apply IH.
Qed.

Lemma map_get_None_keys m k : map_get k m = None ↔ k ∉ map_keys m.
Proof.
  unfold map_keys. induction m as [|[k0 v0] m IH]; simpl.
  - split; [intros _; apply not_elem_of_nil|done].
  - rewrite not_elem_of_cons. destruct (String.eqb_spec k0 k) as [->|Hk].
    + split; [done|]. intros [? _]. done.
    + rewrite IH. split; [intros ?; split; [congruence|done]|by intros [_ ?]].
Qed.

Lemma elem_map_get m k v : NoDup (map_keys m) → (k, v) ∈ m → map_get k m = Some v.
Proof.
  unfold map_keys.
  induction m as [|[k0 v0] m IH]; simpl; intros Hnd Hin.
  - by apply elem_of_nil in Hin.
  - apply NoDup_cons in Hnd as [Hk0 Hnd].
    apply elem_of_cons in Hin as [[= -> ->]|Hin].
    + by rewrite String.eqb_refl.
    + destruct (String.eqb_spec k0 k) as [->|Hk]; [|by apply IH].
      exfalso. apply Hk0. apply list_elem_of_fmap. by exists (k, v).
Qed.

Lemma map_keys_set m k v :
  map_keys (map_set k v m) = if decide (k ∈ map_keys m) then map_keys m else app (map_keys m) [k].
Proof.
  unfold map_keys. induction m as [|[k0 v0] m IH].
  - case_decide as Hin; [by apply elem_of_nil in Hin|done].
  - cbn [map_set]. destruct (String.eqb_spec k0 k) as [->|Hk]; rewrite !fmap_cons; cbn [fst].
    + clear IH. rewrite decide_True; [done|left].
    + rewrite IH. destruct (decide (k ∈ m.*1)) as [Hin|Hin].
      * rewrite decide_True; [done|by right].
      * rewrite decide_False; [done|].
        intros [?|?]%elem_of_cons; [congruence|done].
Qed.

Lemma map_keys_set_NoDup m k v : NoDup (map_keys m) → NoDup (map_keys (map_set k v m)).
Proof.
  intros Hnd. rewrite map_keys_set. case_decide; [done|].
  apply NoDup_app. split_and!; [done| |apply NoDup_singleton].
  intros x Hx Hx'. apply list_elem_of_singleton in Hx'. by subst.
Qed.

Lemma map_keys_filter_NoDup (P : string * V → bool) m :
  NoDup (map_keys m) → NoDup (map_keys (List.filter P m)).
Proof.
  unfold map_keys. induction m as [|[k0 v0] m IH]; simpl; [done|].
  rewrite NoDup_cons. intros [Hk0 Hnd]. destruct (P (k0, v0)); simpl; [|by apply IH].
  apply NoDup_cons. split; [|by apply IH].
  intros Hin. apply Hk0. apply list_elem_of_fmap in Hin as ([k1 v1] & -> & Hin).
  apply list_elem_of_In, filter_In in Hin as [Hin _]. apply list_elem_of_In in Hin.
  apply list_elem_of_fmap. by exists (k1, v1).
Qed.

Lemma map_get_filter (P : string * V → bool) m k v :
  NoDup (map_keys m) → map_get k (List.filter P m) = Some v → map_get k m = Some v.
Proof.
  intros Hnd H. apply elem_map_get; [done|].
  apply map_get_Some_elem in H. apply list_elem_of_In, filter_In in H as [H _].
  by apply list_elem_of_In.
Qed.
End OrderedMapFacts.

(** ** The job store *)

(** Looks a property up in an object built by a series of assignments. *)
Ltac lookup_assigned :=
  repeat (rewrite lookup_insert_ne by done); rewrite ?lookup_insert_eq; done.

Section JobManagerFacts.
Import JobManager.

Lemma pick_or_null_dom h data keys :
  dom (pick_or_null h data keys) = list_to_set keys.
Proof.
  unfold pick_or_null. rewrite dom_list_to_map_L. f_equal.
  rewrite <- list_fmap_compose. by rewrite list_fmap_id.
Qed.

Lemma pick_or_null_lookup h data keys k :
  k ∈ keys → pick_or_null h data keys !! k = Some (or_else (get_prop h data k) VNull).
Proof.
  unfold pick_or_null. induction keys as [|k0 keys IH]; simpl; intros Hin.
  - by apply elem_of_nil in Hin.
  - destruct (decide (k0 = k)) as [->|Hne].
    + apply lookup_insert_eq.
    + rewrite lookup_insert_ne by done. apply IH.
      apply elem_of_cons in Hin as [?|?]; [congruence|done].
Qed.

Lemma fresh_unused (h : heap) : h !! fresh (dom h) = None.
Proof. apply not_elem_of_dom, is_fresh. Qed.

(** What [createJob] does with a request that it accepts. *)
Lemma createJob_accepted requestData jobId now st :
  truthy requestData = true →
  let r := fresh (dom (objects st)) in
  let request := pick_or_null (objects st) requestData request_keys in
  let job : obj := list_to_map
    [ ("jobId", VStr jobId); ("status", VStr "pending"); ("createdAt", VIso now);
      ("updatedAt", VIso now); ("completedAt", VNull); ("request", VRef r);
      ("result", VNull); ("error", VNull); ("currentStep", VNull); ("progress", VNum 0) ] in
  let st' := {| jobs := map_set jobId job (jobs st);
                objects := <[r := request]> (objects st) |} in
  createJob requestData jobId now st =
    (if circular (objects st') (VRef r) then Throw circular_message else Ok jobId, st').
Proof.
  intros Ht. unfold createJob, alloc. rewrite Ht. cbn [negb]. cbv zeta.
  cbn [objects]. by destruct (circular _ _).
Qed.

Lemma createJob_refused requestData jobId now st :
  truthy requestData = false →
  createJob requestData jobId now st = (Throw "Request data is required to create a job", st).
Proof. intros Ht. unfold createJob. by rewrite Ht. Qed.

End JobManagerFacts.

(** C10: [createJob] stores a normalised request.  For a request that
    it accepts, the job it stores has the ten properties [jobId],
    [status], [createdAt], [updatedAt], [completedAt], [request],
    [result], [error], [currentStep] and [progress] and no other; its
    [request] is a new object, the only one that the call adds to the
    heap, with exactly the keys [tweetBody], [profilePhotoUrl],
    [profileName], [username] and [theme]; each of them holds the value
    given by the caller when that value is truthy and [null] when it is
    absent or falsy.  Nothing else of the caller's object is kept, no
    other job is touched, and the call returns the job id unless the
    normalised request cannot be serialised for the log. *)
Theorem C10_createJob_normalizes_request requestData jobId now st :
  truthy requestData = true →
  ∃ r request outcome st',
    JobManager.createJob requestData jobId now st = (outcome, st')
    ∧ outcome = (if circular (JobManager.objects st') (VRef r)
                 then Throw circular_message else Ok jobId)
    ∧ JobManager.job_of st' jobId = Some (list_to_map
        [ ("jobId", VStr jobId); ("status", VStr "pending");
          ("createdAt", VIso now); ("updatedAt", VIso now); ("completedAt", VNull);
          ("request", VRef r);
          ("result", VNull); ("error", VNull); ("currentStep", VNull);
          ("progress", VNum 0) ])
    ∧ JobManager.objects st !! r = None
    ∧ JobManager.objects st' = <[r := request]> (JobManager.objects st)
    ∧ dom request =
        {[ "tweetBody"; "profilePhotoUrl"; "profileName"; "username"; "theme" ]}
    ∧ (∀ k, k ∈ ["tweetBody"; "profilePhotoUrl"; "profileName"; "username"; "theme"] →
         let given := get_prop (JobManager.objects st) requestData k in
         request !! k = Some (if truthy given then given else VNull))
    ∧ (∀ id, id ≠ jobId → JobManager.job_of st' id = JobManager.job_of st id).
Proof.
  intros Ht. eexists _, _, _, _. split; [exact (createJob_accepted _ jobId now st Ht)|].
  unfold JobManager.job_of. cbn [JobManager.jobs JobManager.objects]. split_and!.
  - reflexivity.
  - apply map_get_set_eq.
  - apply fresh_unused.
  - reflexivity.
  - rewrite pick_or_null_dom. unfold JobManager.request_keys. cbn [list_to_set]. set_solver.
  - intros k Hk. cbv zeta. by rewrite pick_or_null_lookup.
  - intros id Hne. by apply map_get_set_ne.
Qed.

(** A witness of C10: the request object of [Examples], which has an
    extra field [admin], no [theme] and an empty [username]. *)
Lemma C10_createJob_normalizes_request_witness :
  ∃ r request outcome st',
    JobManager.createJob (VRef 1%positive) "job-1" 1000 Examples.store0 = (outcome, st')
    ∧ outcome = (if circular (JobManager.objects st') (VRef r)
                 then Throw circular_message else Ok "job-1")
    ∧ JobManager.job_of st' "job-1" = Some (list_to_map
        [ ("jobId", VStr "job-1"); ("status", VStr "pending");
          ("createdAt", VIso 1000); ("updatedAt", VIso 1000); ("completedAt", VNull);
          ("request", VRef r);
          ("result", VNull); ("error", VNull); ("currentStep", VNull);
          ("progress", VNum 0) ])
    ∧ JobManager.objects Examples.store0 !! r = None
    ∧ JobManager.objects st' = <[r := request]> (JobManager.objects Examples.store0)
    ∧ dom request =
        {[ "tweetBody"; "profilePhotoUrl"; "profileName"; "username"; "theme" ]}
    ∧ (∀ k, k ∈ ["tweetBody"; "profilePhotoUrl"; "profileName"; "username"; "theme"] →
         let given := get_prop (JobManager.objects Examples.store0) (VRef 1%positive) k in
         request !! k = Some (if truthy given then given else VNull))
    ∧ (∀ id, id ≠ "job-1" →
         JobManager.job_of st' id = JobManager.job_of Examples.store0 id).
Proof.
  apply (C10_createJob_normalizes_request (VRef 1%positive) "job-1" 1000 Examples.store0).
  reflexivity.
Defined.

Section JobManagerOps.
Import JobManager.

Lemma status_of_changed jobId job' h st :
  status_of (changed jobId job' h st) jobId = job' !! "status".
Proof. unfold status_of, field_of, job_of, changed. cbn [jobs]. by rewrite map_get_set_eq. Qed.

Lemma job_of_changed jobId job' h st id :
  id ≠ jobId → job_of (changed jobId job' h st) id = job_of st id.
Proof. intros Hne. unfold job_of, changed. cbn [jobs]. by apply map_get_set_ne. Qed.

(** [updateJobStatus] on a job that exists, with a status it accepts:
    the store is changed, whatever the call ends with. *)
Lemma updateJobStatus_checked jobId status additionalData now now' st job :
  jobId ≠ "" → status ∈ statuses → job_of st jobId = Some job →
  ∃ outcome job',
    updateJobStatus jobId status additionalData now now' st
      = (outcome, changed jobId job' (objects st) st)
    ∧ job' !! "status"
        = Some (default status (own_properties (objects st) additionalData !! "status"))
    ∧ (own_properties (objects st) additionalData !! "completedAt" = None →
       ∀ c, job !! "completedAt" = Some c → truthy c = true →
            job' !! "completedAt" = Some c).
Proof.
  intros Hid Hs Hjob. unfold updateJobStatus, job_of in *.
  destruct (String.eqb_spec jobId ""); [done|].
  rewrite bool_decide_true by done. cbn [negb]. rewrite Hjob.
  set (patch := own_properties (objects st) additionalData).
  set (job2 := patch ∪ _).
  match goal with
  | |- context [if ?c then <["completedAt" := ?v]> job2 else job2] =>
      set (job3 := if c then <["completedAt" := v]> job2 else job2)
  end.
  assert (job2 !! "status" = Some (default status (patch !! "status"))) as H2.
  { unfold job2. rewrite lookup_union, lookup_insert_ne by done. rewrite lookup_insert_eq.
    by destruct (patch !! "status"). }
  assert (job3 !! "status" = Some (default status (patch !! "status"))) as H3.
  { unfold job3. destruct (_ && _); [|done]. by rewrite lookup_insert_ne. }
  assert (patch !! "completedAt" = None →
          ∀ c, job !! "completedAt" = Some c → truthy c = true →
               job3 !! "completedAt" = Some c) as Hc.
  { intros Hnone c Hc Htrue.
    assert (job2 !! "completedAt" = Some c) as Hl.
    { unfold job2. rewrite lookup_union, Hnone. rewrite !lookup_insert_ne by done.
      by rewrite Hc. }
    unfold job3. rewrite Hl. cbn [default from_option id]. rewrite Htrue.
    by rewrite andb_false_r. }
  unfold changed.
  destruct additionalData; try destruct (_ && circular _ _); by eexists _, _.
Qed.

Lemma updateJobStatus_unchecked jobId status additionalData now now' st :
  jobId = "" ∨ status ∉ statuses ∨ job_of st jobId = None →
  ∃ m, updateJobStatus jobId status additionalData now now' st = (Throw m, st).
Proof.
  intros H. unfold updateJobStatus, job_of in *.
  destruct (String.eqb_spec jobId ""); [by eexists|].
  destruct (decide (status ∈ statuses)) as [Hs|Hs].
  - rewrite bool_decide_true by done. cbn [negb].
    destruct H as [? | [? | ->]]; [done..|]. by eexists.
  - rewrite bool_decide_false by done. by eexists.
Qed.

Lemma setJobCompleted_checked jobId resultData now st job :
  jobId ≠ "" → truthy resultData = true → job_of st jobId = Some job →
  ∃ outcome job' h,
    setJobCompleted jobId resultData now st = (outcome, changed jobId job' h st)
    ∧ job' !! "status" = Some (VStr "completed")
    ∧ job' !! "completedAt" = Some (VIso now).
Proof.
  intros Hid Ht Hjob. unfold setJobCompleted, job_of in *.
  destruct (String.eqb_spec jobId ""); [done|].
  rewrite Ht, Hjob. cbn [negb]. unfold alloc. cbv zeta. unfold changed.
  destruct (circular _ _); eexists _, _, _; (split; [reflexivity|]);
    split; lookup_assigned.
Qed.

Lemma setJobCompleted_unchecked jobId resultData now st :
  jobId = "" ∨ truthy resultData = false ∨ job_of st jobId = None →
  ∃ m, setJobCompleted jobId resultData now st = (Throw m, st).
Proof.
  intros H. unfold setJobCompleted, job_of in *.
  destruct (String.eqb_spec jobId ""); [by eexists|].
  destruct (truthy resultData); cbn [negb]; [|by eexists].
  destruct H as [? | [? | ->]]; [done..|]. by eexists.
Qed.

Lemma setJobFailed_checked jobId errorMessage errorStack now st job :
  jobId ≠ "" → truthy errorMessage = true → job_of st jobId = Some job →
  ∃ job' h,
    setJobFailed jobId errorMessage errorStack now st = (Ok (), changed jobId job' h st)
    ∧ job' !! "status" = Some (VStr "failed")
    ∧ job' !! "completedAt" = Some (VIso now).
Proof.
  intros Hid Ht Hjob. unfold setJobFailed, job_of in *.
  destruct (String.eqb_spec jobId ""); [done|].
  rewrite Ht, Hjob. cbn [negb]. unfold alloc. cbv zeta. unfold changed.
  eexists _, _; (split; [reflexivity|]); split; lookup_assigned.
Qed.

Lemma setJobFailed_unchecked jobId errorMessage errorStack now st :
  jobId = "" ∨ truthy errorMessage = false ∨ job_of st jobId = None →
  ∃ m, setJobFailed jobId errorMessage errorStack now st = (Throw m, st).
Proof.
  intros H. unfold setJobFailed, job_of in *.
  destruct (String.eqb_spec jobId ""); [by eexists|].
  destruct (truthy errorMessage); cbn [negb]; [|by eexists].
  destruct H as [? | [? | ->]]; [done..|]. by eexists.
Qed.

Lemma well_formed_status status :
  status = VStr "pending" ∨ status = VStr "processing" ∨
  status = VStr "completed" ∨ status = VStr "failed" ↔ status ∈ statuses.
Proof. unfold statuses. rewrite !elem_of_cons, elem_of_nil. tauto. Qed.

(** A call with well-formed arguments on a job that exists changes that
    job only. *)
Lemma call_checked o st job :
  well_formed o → job_of st (target o) = Some job →
  ∃ outcome job' h,
    call o st = (outcome, changed (target o) job' h st)
    ∧ job' !! "status" = Some (default (requested o) (patch_status (objects st) o)).
Proof.
  intros [Hid Hwf] Hjob. destruct o; cbn [call target requested patch_status] in *.
  - apply well_formed_status in Hwf.
    destruct (updateJobStatus_checked jobId status additionalData now now' st job)
      as (outcome & job' & -> & Hs & _); [done..|]. by eexists _, _, _.
  - destruct (setJobCompleted_checked jobId resultData now st job)
      as (outcome & job' & h & -> & Hs & _); [done..|]. by eexists _, _, _.
  - destruct (setJobFailed_checked jobId errorMessage errorStack now st job)
      as (job' & h & -> & Hs & _); [done..|]. by eexists _, _, _.
Qed.

Lemma call_unchecked o st :
  ¬ (well_formed o ∧ is_Some (job_of st (target o))) → ∃ m, call o st = (Throw m, st).
Proof.
  intros Hn. destruct o; cbn [call target] in *.
  - apply updateJobStatus_unchecked.
    destruct (decide (jobId = "")) as [|Hid]; [by left|].
    destruct (decide (status ∈ statuses)) as [Hs|Hs]; [|by right; left].
    destruct (job_of st jobId) eqn:Hjob; [|by right; right].
    exfalso. apply Hn. split; [|by eexists]. split; [done|]. by apply well_formed_status.
  - apply setJobCompleted_unchecked.
    destruct (decide (jobId = "")) as [|Hid]; [by left|].
    destruct (truthy resultData) eqn:Ht; [|by right; left].
    destruct (job_of st jobId) eqn:Hjob; [|by right; right].
    exfalso. apply Hn. split; [|by eexists]. by split.
  - apply setJobFailed_unchecked.
    destruct (decide (jobId = "")) as [|Hid]; [by left|].
    destruct (truthy errorMessage) eqn:Ht; [|by right; left].
    destruct (job_of st jobId) eqn:Hjob; [|by right; right].
    exfalso. apply Hn. split; [|by eexists]. by split.
Qed.

Lemma apply_target o st :
  well_formed o → is_Some (job_of st (target o)) →
  status_of (apply o st) (target o)
    = Some (default (requested o) (patch_status (objects st) o)).
Proof.
  intros Hwf [job Hjob]. unfold apply.
  destruct (call_checked o st job Hwf Hjob) as (outcome & job' & h & -> & Hs).
  cbn [snd]. by rewrite status_of_changed.
Qed.

Lemma apply_other o st jobId :
  jobId ≠ target o → job_of (apply o st) jobId = job_of st jobId.
Proof.
  intros Hne. unfold apply.
  destruct (decide (well_formed o ∧ is_Some (job_of st (target o)))) as [[Hwf [job Hjob]]|Hn].
  - destruct (call_checked o st job Hwf Hjob) as (outcome & job' & h & -> & _).
    cbn [snd]. by apply job_of_changed.
  - by destruct (call_unchecked o st Hn) as [m ->].
Qed.

Lemma apply_keeps_status o st jobId s :
  status_of st jobId = Some s →
  asks_for s jobId (objects st) o →
  status_of (apply o st) jobId = Some s.
Proof.
  intros Hs Hasks.
  destruct (decide (jobId = target o)) as [->|Hne].
  - destruct (decide (well_formed o ∧ is_Some (job_of st (target o)))) as [[Hwf Hjob]|Hn].
    + rewrite apply_target by done. destruct (Hasks eq_refl) as [-> Hpatch].
      destruct (patch_status (objects st) o) as [s'|] eqn:Hp; [|done].
      cbn. f_equal. by apply Hpatch.
    + unfold apply. by destruct (call_unchecked o st Hn) as [m ->].
  - unfold status_of, field_of in *. by rewrite apply_other.
Qed.

End JobManagerOps.

(** C1, as the code has it.  The job store has no transition guard.  A
    call of [updateJobStatus], [setJobCompleted] or [setJobFailed] with
    well-formed arguments on a job that exists leaves that job in the
    status the call asks for, whatever its status was, and in the
    [status] of the additional data when the additional data of
    [updateJobStatus] has such a property; it does so even when it
    throws afterwards.  Any other call throws and changes nothing, and
    no call changes another job.  Hence the status of a job that is
    [completed] or [failed] stays what it is along every sequence of
    calls in which each call on that job asks for that status and
    carries no other status in its additional data. *)
Theorem C1_terminal_status_changes_only_on_request st jobId s ops :
  JobManager.status_of st jobId = Some s →
  JobManager.terminal s →
  JobManager.keeps s jobId ops st →
  JobManager.status_of (JobManager.run ops st) jobId = Some s
  ∧ (∀ o st0, JobManager.well_formed o →
       is_Some (JobManager.job_of st0 (JobManager.target o)) →
       JobManager.status_of (JobManager.apply o st0) (JobManager.target o)
         = Some (default (JobManager.requested o)
                         (JobManager.patch_status (JobManager.objects st0) o)))
  ∧ (∀ o st0, ¬ (JobManager.well_formed o ∧
                 is_Some (JobManager.job_of st0 (JobManager.target o))) →
       ∃ m, JobManager.call o st0 = (Throw m, st0))
  ∧ (∀ o st0 id, id ≠ JobManager.target o →
       JobManager.job_of (JobManager.apply o st0) id = JobManager.job_of st0 id).
Proof.
  intros Hs _ Hkeeps. split_and!.
  - revert st Hs Hkeeps. induction ops as [|o ops IH]; intros st Hs Hkeeps; [done|].
    destruct Hkeeps as [Ho Hkeeps]. cbn [JobManager.run foldl]. apply IH; [|done].
    by apply apply_keeps_status.
  - intros o st0. apply apply_target.
  - intros o st0. apply call_unchecked.
  - intros o st0 id. apply apply_other.
Qed.

(** A witness of C1: the completed job of [Examples] stays completed
    when it is completed again, when another job is addressed, and when
    a call on it throws. *)
Lemma C1_terminal_status_changes_only_on_request_witness :
  let ops :=
    [ JobManager.SetJobCompleted "job-1" (VRef 2%positive) 3000;
      JobManager.UpdateJobStatus "job-2" (VStr "pending") VUndef 4000 4000;
      JobManager.UpdateJobStatus "job-1" (VStr "completed") VNull 5000 5000 ] in
  JobManager.status_of (JobManager.run ops Examples.store_completed) "job-1"
    = Some (VStr "completed")
  ∧ (∀ o st0, JobManager.well_formed o →
       is_Some (JobManager.job_of st0 (JobManager.target o)) →
       JobManager.status_of (JobManager.apply o st0) (JobManager.target o)
         = Some (default (JobManager.requested o)
                         (JobManager.patch_status (JobManager.objects st0) o)))
  ∧ (∀ o st0, ¬ (JobManager.well_formed o ∧
                 is_Some (JobManager.job_of st0 (JobManager.target o))) →
       ∃ m, JobManager.call o st0 = (Throw m, st0))
  ∧ (∀ o st0 id, id ≠ JobManager.target o →
       JobManager.job_of (JobManager.apply o st0) id = JobManager.job_of st0 id).
Proof.
  apply (C1_terminal_status_changes_only_on_request Examples.store_completed "job-1"
           (VStr "completed")).
  - vm_compute. reflexivity.
  - left. reflexivity.
  - cbn [JobManager.keeps]. unfold JobManager.asks_for.
    cbn [JobManager.target JobManager.requested JobManager.patch_status own_properties].
    split_and!; try done; intros _; (split; [reflexivity|by intros s' [=]]).
Defined.

(** C1 as the specification states it fails: [updateJobStatus] puts the
    completed job of [Examples] back to [pending]; so does a call that
    asks for [completed] with additional data whose [status] is
    [pending]; and a call that throws, its additional data being [null],
    has put the job to [processing] before. *)
Lemma C1_counterexample :
  JobManager.status_of Examples.store_completed "job-1" = Some (VStr "completed")
  ∧ JobManager.status_of
      (JobManager.run [JobManager.UpdateJobStatus "job-1" (VStr "pending") VUndef 3000 3000]
         Examples.store_completed) "job-1" = Some (VStr "pending")
  ∧ (let st := {| JobManager.jobs := JobManager.jobs Examples.store_completed;
                  JobManager.objects :=
                    <[9%positive := {[ "status" := VStr "pending" ]}]>
                      (JobManager.objects Examples.store_completed) |} in
     JobManager.status_of
       (JobManager.run
          [JobManager.UpdateJobStatus "job-1" (VStr "completed") (VRef 9%positive) 3000 3000]
          st) "job-1" = Some (VStr "pending"))
  ∧ (let o := JobManager.UpdateJobStatus "job-1" (VStr "processing") VNull 3000 3000 in
     (JobManager.call o Examples.store_completed).1
       = Throw "Cannot convert undefined or null to object"
     ∧ JobManager.status_of (JobManager.apply o Examples.store_completed) "job-1"
       = Some (VStr "processing")).
Proof. cbv zeta. split_and!; vm_compute; reflexivity. Qed.

(** C4: [setJobCompleted] and [setJobFailed] assign [completedAt]
    without looking at it.  The job of [Examples] that failed at instant
    2000 gets a new [completedAt] when it is completed at instant 3000,
    and the job completed at 2000 gets a new one when it fails at 3000;
    [updateJobStatus], which tests [!job.completedAt], leaves the value
    alone. *)
Theorem C4_completedAt_is_overwritten :
  JobManager.field_of Examples.store_failed "job-1" "completedAt" = Some (VIso 2000)
  ∧ JobManager.field_of
      (JobManager.apply (JobManager.SetJobCompleted "job-1" (VRef 2%positive) 3000)
         Examples.store_failed) "job-1" "completedAt" = Some (VIso 3000)
  ∧ JobManager.field_of
      (JobManager.apply (JobManager.SetJobFailed "job-1" (VStr "again") VNull 3000)
         Examples.store_completed) "job-1" "completedAt" = Some (VIso 3000)
  ∧ JobManager.field_of
      (JobManager.apply (JobManager.UpdateJobStatus "job-1" (VStr "completed") VUndef 3000 3000)
         Examples.store_failed) "job-1" "completedAt" = Some (VIso 2000).
Proof. split_and!; vm_compute; reflexivity. Qed.

(** C3: the copy that an accessor returns is a new object, but its
    [request] is the very object of the canonical record.  A caller who
    assigns [copy.request.tweetBody] changes the record of the store,
    whether the copy comes from [getJob], from [getAllJobs] or from
    [getJobsByStatus]. *)
Theorem C3_accessor_copy_shares_request :
  (let '(copy, st) := JobManager.getJob "job-1" Examples.store1 in
   let request := get_prop (JobManager.objects st) copy "request" in
   JobManager.field_of st "job-1" "request" = Some request
   ∧ JobManager.nested_field_of st "job-1" "request" "tweetBody" = VStr "hello"
   ∧ JobManager.nested_field_of
       (JobManager.assign request "tweetBody" (VStr "tampered") st)
       "job-1" "request" "tweetBody" = VStr "tampered")
  ∧ (let '(copies, st) := JobManager.getAllJobs Examples.store1 in
     let request := get_prop (JobManager.objects st) (default VNull (head copies)) "request" in
     JobManager.nested_field_of st "job-1" "request" "tweetBody" = VStr "hello"
     ∧ JobManager.nested_field_of
         (JobManager.assign request "tweetBody" (VStr "tampered") st)
         "job-1" "request" "tweetBody" = VStr "tampered")
  ∧ (let '(copies, st) :=
       Examples.after (JobManager.getJobsByStatus (VStr "pending") Examples.store1)
                      ([], Examples.store1) in
     let request := get_prop (JobManager.objects st) (default VNull (head copies)) "request" in
     JobManager.nested_field_of st "job-1" "request" "tweetBody" = VStr "hello"
     ∧ JobManager.nested_field_of
         (JobManager.assign request "tweetBody" (VStr "tampered") st)
         "job-1" "request" "tweetBody" = VStr "tampered").
Proof. vm_compute. split_and!; reflexivity. Qed.

(** ** Paths *)

Section PathFacts.
Import Path.

Lemma take_until_slash_no_slash l : slash ∉ take_until_slash l.
Proof.
  induction l as [|c l IH]; simpl; [apply not_elem_of_nil|].
  unfold is_slash. destruct (Ascii.eqb_spec c slash) as [->|Hc]; [apply not_elem_of_nil|].
  rewrite not_elem_of_cons. split; [congruence|done].
Qed.

Lemma take_until_slash_id l : slash ∉ l → take_until_slash l = l.
Proof.
  induction l as [|c l IH]; simpl; [done|]. rewrite not_elem_of_cons. intros [Hc Hl].
  unfold is_slash. destruct (Ascii.eqb_spec c slash) as [->|_]; [done|]. by rewrite IH.
Qed.

Lemma drop_slashes_id l : slash ∉ l → drop_slashes l = l.
Proof.
  destruct l as [|c l]; simpl; [done|]. rewrite not_elem_of_cons. intros [Hc _].
  unfold is_slash. by destruct (Ascii.eqb_spec c slash) as [->|_].
Qed.

(** The result of [basename] has no separator. *)
Lemma basename_no_slash p : slash ∉ String.list_ascii_of_string (basename p).
Proof.
  unfold basename. rewrite String.list_ascii_of_string_of_list_ascii.
  rewrite list_elem_of_In, <- in_rev, <- list_elem_of_In. apply take_until_slash_no_slash.
Qed.

(** [basename] leaves a name without separator as it is. *)
Lemma basename_id n : slash ∉ String.list_ascii_of_string n → basename n = n.
Proof.
  intros Hn. unfold basename.
  assert (slash ∉ rev (String.list_ascii_of_string n)) as Hr.
  { by rewrite list_elem_of_In, <- in_rev, <- list_elem_of_In. }
  rewrite drop_slashes_id, take_until_slash_id by done.
  by rewrite rev_involutive, String.string_of_list_ascii_of_string.
Qed.

Lemma ends_with_refl s : ends_with s s = true.
Proof. destruct s; simpl; by rewrite ?Ascii.eqb_refl, ?String.eqb_refl. Qed.

Lemma ends_with_cons c s suffix :
  ends_with (String c s) suffix
  = if String.eqb (String c s) suffix then true else ends_with s suffix.
Proof. reflexivity. Qed.

Lemma ends_with_app a suffix : ends_with (a ++ suffix) suffix = true.
Proof.
  induction a as [|c a IH]; [apply ends_with_refl|].
  change (String c a ++ suffix) with (String c (a ++ suffix)).
  rewrite ends_with_cons, IH. by destruct (String.eqb (String c (a ++ suffix)) suffix).
Qed.

Lemma list_of_append a b :
  String.list_ascii_of_string (a ++ b)
  = app (String.list_ascii_of_string a) (String.list_ascii_of_string b).
Proof. induction a as [|c a IH]; simpl; [done|]. by rewrite IH. Qed.

Lemma append_inj_r a b suffix : a ++ suffix = b ++ suffix → a = b.
Proof.
  intros H. apply (f_equal String.list_ascii_of_string) in H.
  rewrite !list_of_append in H. apply app_inv_tail in H.
  apply (f_equal String.string_of_list_ascii) in H.
  by rewrite !String.string_of_list_ascii_of_string in H.
Qed.

Lemma join_file_name dir n : file_name n → join dir (basename n) = app dir [n].
Proof.
  intros (H1 & H2 & H3 & H4). rewrite basename_id by done. unfold join.
  destruct (String.eqb_spec n ""); [done|].
  destruct (String.eqb_spec n "."); [done|].
  by destruct (String.eqb_spec n "..").
Qed.

Lemma add_extension_entry dir n ext : add_extension (app dir [n]) ext = app dir [n ++ ext].
Proof. unfold add_extension. by rewrite last_snoc, removelast_last. Qed.

Lemma entry_not_prefix (dir : path) n : ¬ (app dir [n]) `prefix_of` dir.
Proof.
  intros Hp. apply prefix_length in Hp. rewrite length_app in Hp. simpl in Hp. lia.
Qed.

End PathFacts.

(** ** The file system *)

Section FSFacts.
Import Path FS.

Lemma NoDup_omap_inj {A B} (f : A → option B) (l : list A) :
  (∀ x y z, f x = Some z → f y = Some z → x = y) → NoDup l → NoDup (omap f l).
Proof.
  intros Hinj. induction l as [|a l IH]; simpl; [constructor|].
  rewrite NoDup_cons. intros [Ha Hl]. destruct (f a) as [b|] eqn:Hfa; [|by apply IH].
  apply NoDup_cons. split; [|by apply IH].
  intros Hin. apply list_elem_of_omap in Hin as (a' & Ha' & Hfa').
  by rewrite (Hinj _ _ _ Hfa Hfa') in Ha.
Qed.

Lemma entry_of_Some (root p : path) n : entry_of root p = Some n ↔ p = app root [n].
Proof.
  unfold entry_of. split.
  - destruct (last p) as [name|]; [|done]. case_bool_decide; [|done]. by intros [= <-].
  - intros ->. rewrite last_snoc. by rewrite bool_decide_true.
Qed.

Lemma readdir_elem (root : path) (fs : files) n :
  n ∈ readdir root fs ↔ is_Some (fs !! app root [n]).
Proof.
  unfold readdir. rewrite list_elem_of_omap. split.
  - intros (p & Hp & He). apply entry_of_Some in He as ->.
    apply list_elem_of_fmap in Hp as ([p c] & -> & Hp). apply elem_of_map_to_list in Hp. eauto.
  - intros [c Hc]. exists (app root [n]). split; [|by apply entry_of_Some].
    apply list_elem_of_fmap. exists (app root [n], c). split; [done|].
    by apply elem_of_map_to_list.
Qed.

Lemma readdir_NoDup (root : path) (fs : files) : NoDup (readdir root fs).
Proof.
  unfold readdir. apply NoDup_omap_inj.
  - intros p q n Hp Hq. apply entry_of_Some in Hp, Hq. congruence.
  - apply NoDup_fst_map_to_list.
Qed.

End FSFacts.

(** ** The artifact store *)

Section LocalStorageFacts.
Import Path FS LocalStorage.
Context {E : Engine}.
Variable self : LocalStorage.t.
Implicit Types (fs : files) (n m name : string).

Lemma getFilePath_entry n : file_name n → _getFilePath self n = Ok (payload_path self n).
Proof.
  intros Hn. unfold _getFilePath, payload_path. rewrite join_file_name by done.
  destruct Hn as [Hne _]. by destruct (String.eqb_spec n "").
Qed.

Lemma getMetadataPath_entry n : file_name n → _getMetadataPath self n = Ok (metadata_path self n).
Proof.
  intros Hn. unfold _getMetadataPath. rewrite getFilePath_entry by done.
  unfold payload_path, metadata_path. by rewrite add_extension_entry.
Qed.

Lemma entry_not_directory n : is_directory (storagePath self) (app (storagePath self) [n]) = false.
Proof. unfold is_directory. apply bool_decide_eq_false, entry_not_prefix. Qed.

Lemma getMetadata_entry n fs :
  file_name n →
  getMetadata self n fs =
    match fs !! metadata_path self n with
    | Some (Json metadata) => Ok metadata
    | Some (Data _) => Throw "Failed to retrieve metadata: Unexpected token in JSON"
    | None => Throw ("Metadata not found: " ++ n)
    end.
Proof.
  intros Hn. unfold getMetadata. rewrite getMetadataPath_entry by done.
  destruct Hn as [Hne _]. destruct (String.eqb_spec n ""); [done|].
  unfold readFile, metadata_path. rewrite entry_not_directory.
  by destruct (fs !! _) as [[]|].
Qed.

Lemma delete_entry n fs :
  file_name n → ∃ b, delete_ self n fs = (Ok b, remove_artifact self fs n).
Proof.
  intros Hn. unfold delete_, remove_artifact.
  rewrite getFilePath_entry, getMetadataPath_entry by done.
  destruct Hn as [Hne _]. destruct (String.eqb_spec n ""); [done|].
  unfold unlink, payload_path, metadata_path. rewrite !entry_not_directory.
  destruct (fs !! app (storagePath self) [n]) as [c|] eqn:Hp.
  - destruct (delete _ fs !! app (storagePath self) [n ++ ".meta.json"]) eqn:Hm; eauto.
    rewrite (delete_id (delete _ fs) _ Hm). eauto.
  - rewrite (delete_id fs _ Hp).
    destruct (fs !! app (storagePath self) [n ++ ".meta.json"]) eqn:Hm; eauto.
    rewrite (delete_id fs _ Hm). eauto.
Qed.

Lemma cleanup_step_entry now c fs n :
  file_name n →
  cleanup_step self now (c, fs) n =
    if ttl_expired self now fs n then (c + 1, remove_artifact self fs n) else (c, fs).
Proof.
  intros Hn. unfold cleanup_step, ttl_expired.
  destruct (getMetadata self n fs) as [metadata|]; [|done].
  destruct (_isExpired self metadata now); [|done].
  by destruct (delete_entry n fs Hn) as [b ->].
Qed.

(** The files of distinct artifacts are distinct. *)
Lemma metadata_path_ne_payload n m : is_video_file n = true → metadata_path self m ≠ payload_path self n.
Proof.
  unfold metadata_path, payload_path, is_video_file. intros Hv Heq.
  apply app_inv_head in Heq. injection Heq as <-. by rewrite ends_with_app in Hv.
Qed.

Lemma metadata_path_inj n m : metadata_path self n = metadata_path self m → n = m.
Proof.
  unfold metadata_path. intros Heq. apply app_inv_head in Heq. injection Heq as Heq.
  by apply append_inj_r in Heq.
Qed.

Lemma payload_path_inj n m : payload_path self n = payload_path self m → n = m.
Proof. unfold payload_path. intros Heq. apply app_inv_head in Heq. by injection Heq. Qed.

Lemma remove_artifact_metadata fs n m :
  is_video_file n = true → n ≠ m →
  remove_artifact self fs n !! metadata_path self m = fs !! metadata_path self m.
Proof.
  intros Hv Hne. unfold remove_artifact. rewrite !lookup_delete_ne; [done| |].
  - intros Heq. by apply symmetry, metadata_path_ne_payload in Heq.
  - intros Heq. by apply metadata_path_inj in Heq.
Qed.

Lemma ttl_expired_remove_other now fs n m :
  file_name m → is_video_file n = true → n ≠ m →
  ttl_expired self now (remove_artifact self fs n) m = ttl_expired self now fs m.
Proof.
  intros Hm Hv Hne. unfold ttl_expired. rewrite !getMetadata_entry by done.
  by rewrite remove_artifact_metadata.
Qed.

(** What the loop of [cleanupExpiredFiles] computes. *)
Lemma cleanup_fold now names : ∀ c fs,
  Forall file_name names → Forall (fun n => is_video_file n = true) names → NoDup names →
  foldl (cleanup_step self now) (c, fs) names =
    (c + Z.of_nat (length (List.filter (ttl_expired self now fs) names)),
     foldl (remove_artifact self) fs (List.filter (ttl_expired self now fs) names)).
Proof.
  induction names as [|n names IH]; intros c fs Hfn Hv Hnd.
  - simpl. f_equal. lia.
  - apply Forall_cons in Hfn as [Hn Hfn]. apply Forall_cons in Hv as [Hvn Hv].
    apply NoDup_cons in Hnd as [Hnin Hnd].
    cbn [foldl List.filter]. rewrite cleanup_step_entry by done.
    destruct (ttl_expired self now fs n) eqn:He.
    + rewrite IH by done.
      assert (List.filter (ttl_expired self now (remove_artifact self fs n)) names
              = List.filter (ttl_expired self now fs) names) as ->.
      { apply List.filter_ext_in. intros m Hm. apply list_elem_of_In in Hm.
        apply ttl_expired_remove_other; [|done|].
        - by eapply Forall_forall in Hfn.
        - intros ->. done. }
      cbn [foldl length]. f_equal. lia.
    + by rewrite IH.
Qed.

(** The files of the artifacts in [names] are gone, the others are
    left. *)
Lemma remove_all_lookup names : ∀ fs p,
  foldl (remove_artifact self) fs names !! p =
    if decide (Exists (fun n => p = payload_path self n ∨ p = metadata_path self n) names)
    then None else fs !! p.
Proof.
  induction names as [|n names IH]; intros fs p; cbn [foldl].
  - rewrite decide_False; [done|]. by intros ?%Exists_nil.
  - rewrite IH. destruct (decide (Exists _ names)) as [Hex|Hno].
    + rewrite decide_True; [done|]. by apply Exists_cons_tl.
    + destruct (decide (p = payload_path self n ∨ p = metadata_path self n)) as [Hp|Hp].
      * rewrite decide_True by (by apply Exists_cons_hd).
        unfold remove_artifact. destruct Hp as [->| ->].
        -- destruct (decide (metadata_path self n = payload_path self n)) as [->|?].
           ++ apply lookup_delete_eq.
           ++ rewrite lookup_delete_ne by done. apply lookup_delete_eq.
        -- apply lookup_delete_eq.
      * rewrite decide_False.
        -- unfold remove_artifact. rewrite !lookup_delete_ne; [done| |]; intros <-; tauto.
        -- by intros [?|?]%Exists_cons.
Qed.

Lemma filter_none {A} (f : A → bool) (l : list A) :
  (∀ x, x ∈ l → f x = false) → List.filter f l = [].
Proof.
  induction l as [|a l IH]; intros H; [done|]. simpl.
  rewrite (H a) by left. apply IH. intros x Hx. apply H. by right.
Qed.

Lemma artifacts_elem fs n :
  n ∈ artifacts self fs ↔ is_Some (fs !! payload_path self n) ∧ is_video_file n = true.
Proof.
  unfold artifacts. rewrite list_elem_of_In, filter_In, <- list_elem_of_In.
  by rewrite readdir_elem.
Qed.

Lemma artifacts_NoDup fs : NoDup (artifacts self fs).
Proof. apply NoDup_ListNoDup, List.NoDup_filter, NoDup_ListNoDup, readdir_NoDup. Qed.

Lemma artifacts_file_name fs : directory_ok self fs → Forall file_name (artifacts self fs).
Proof.
  intros Hok. apply Forall_forall. intros n Hn.
  unfold directory_ok in Hok. rewrite Forall_forall in Hok. apply Hok.
  unfold artifacts in Hn. apply list_elem_of_In, filter_In in Hn as [Hn _].
  by apply list_elem_of_In.
Qed.

Lemma artifacts_video fs : Forall (fun n => is_video_file n = true) (artifacts self fs).
Proof.
  apply Forall_forall. intros n Hn.
  unfold artifacts in Hn. by apply list_elem_of_In, filter_In in Hn as [_ Hn].
Qed.

(** [_isExpired], in terms of the metadata record. *)
Lemma isExpired_spec metadata now :
  _isExpired self metadata now = true ↔
  ∃ createdAt created,
    metadata !! "createdAt" = Some createdAt
    ∧ truthy createdAt = true
    ∧ date_of createdAt = Some created
    ∧ Z.abs (created + ttlHours self * 3600000) ≤ MAX_TIME
    ∧ created + ttlHours self * 3600000 < now.
Proof.
  unfold _isExpired.
  replace (ttlHours self * 60 * 60 * 1000) with (ttlHours self * 3600000) by lia.
  split.
  - destruct (metadata !! "createdAt") as [createdAt|] eqn:Hc; cbn [default from_option id negb truthy];
      [|done].
    destruct (truthy createdAt) eqn:Ht; cbn [negb]; [|done].
    destruct (date_of createdAt) as [created|] eqn:Hd; cbn [mbind option_bind]; [|done].
    unfold time_clip. destruct (Z.leb_spec (Z.abs (created + ttlHours self * 3600000)) MAX_TIME);
      [|done].
    intros Hlt%Z.ltb_lt. by eexists _, _.
  - intros (createdAt & created & -> & Ht & Hd & Hr & Hlt).
    cbn [default from_option id]. rewrite Ht, Hd. cbn [negb mbind option_bind].
    unfold time_clip. rewrite (proj2 (Z.leb_le _ _) Hr). by apply Z.ltb_lt.
Qed.

Lemma ttl_expired_outlived now fs n :
  file_name n → ttl_expired self now fs n = true ↔ outlived self now fs n.
Proof.
  intros Hn. unfold ttl_expired, outlived. rewrite getMetadata_entry by done.
  destruct (fs !! metadata_path self n) as [[bytes|metadata]|].
  - split; [done|]. by intros (? & ? & ? & [=] & _).
  - rewrite isExpired_spec. split.
    + intros (createdAt & created & ?). by exists metadata, createdAt, created.
    + intros (? & createdAt & created & [= <-] & ?). by exists createdAt, created.
  - split; [done|]. by intros (? & ? & ? & [=] & _).
Qed.

Lemma artifacts_stored fs n : n ∈ artifacts self fs ↔ stored self fs n.
Proof.
  rewrite artifacts_elem. unfold stored, is_video_file.
  destruct (ends_with n ".meta.json"); cbn [negb]; naive_solver.
Qed.

(** What [cleanupExpiredFiles] does in a directory whose entries have
    proper names. *)
Lemma cleanupExpiredFiles_spec now fs :
  directory_ok self fs →
  let gone := List.filter (ttl_expired self now fs) (artifacts self fs) in
  cleanupExpiredFiles self now fs
    = (Ok (Z.of_nat (length gone)), foldl (remove_artifact self) fs gone).
Proof.
  intros Hok gone. unfold cleanupExpiredFiles. fold (artifacts self fs).
  rewrite cleanup_fold;
    [|by apply artifacts_file_name|apply artifacts_video|apply artifacts_NoDup].
  fold gone. by rewrite Z.add_0_l.
Qed.

End LocalStorageFacts.

(** In the directory of [Examples] that holds [a.mp4], created at
    instant 0, and [c.mp4], whose record gives the date [1970-01-01],
    the provider with 24 hours to live removes both after 25 hours, for
    the engine that reads dates without time. *)
Example cleanupExpiredFiles_reads_dates :
  @LocalStorage.cleanupExpiredFiles Examples.engine Examples.provider24
    (25 * Examples.hour) Examples.files_c
  = (Ok 2, ∅).
Proof. vm_compute. reflexivity. Qed.

(** C7, as the code has it.  [cleanupExpiredFiles] judges an artifact by
    the [createdAt] of its metadata record and the [ttlHours] of the
    provider that sweeps, not by the recorded [expiresAt].  It removes
    the payload and the metadata record of exactly the stored artifacts
    that have outlived this time-to-live: those whose record is a JSON
    object with a [createdAt] that is set and is a date, that date plus
    [ttlHours] hours being a date before now.  It returns their number,
    leaves every other file as it is, and removes nothing when it is run
    again at the same instant. *)
Theorem C7_sweep_removes_exactly_the_ttl_expired {E : Engine} (self : LocalStorage.t) now fs :
  LocalStorage.directory_ok self fs →
  ∃ gone fs',
    LocalStorage.cleanupExpiredFiles self now fs = (Ok (Z.of_nat (length gone)), fs')
    ∧ NoDup gone
    ∧ (∀ name, name ∈ gone ↔
         LocalStorage.stored self fs name ∧ LocalStorage.outlived self now fs name)
    ∧ (∀ name, name ∈ gone →
         fs' !! LocalStorage.payload_path self name = None ∧
         fs' !! LocalStorage.metadata_path self name = None)
    ∧ (∀ p, (∀ name, name ∈ gone → p ≠ LocalStorage.payload_path self name ∧
                                    p ≠ LocalStorage.metadata_path self name) →
         fs' !! p = fs !! p)
    ∧ LocalStorage.cleanupExpiredFiles self now fs' = (Ok 0, fs').
Proof.
  intros Hok.
  set (gone := List.filter (LocalStorage.ttl_expired self now fs) (LocalStorage.artifacts self fs)).
  exists gone, (foldl (LocalStorage.remove_artifact self) fs gone).
  assert (∀ g, g ∈ gone ↔ g ∈ LocalStorage.artifacts self fs ∧
                          LocalStorage.ttl_expired self now fs g = true) as Hgone.
  { intros g. unfold gone. by rewrite list_elem_of_In, filter_In, <- list_elem_of_In. }
  assert (∀ n, n ∈ LocalStorage.artifacts self fs → Path.file_name n) as Hnames.
  { intros n Hn. pose proof (artifacts_file_name self fs Hok) as Hall.
    by eapply Forall_forall in Hall. }
  assert (∀ name, name ∈ LocalStorage.artifacts self fs →
            LocalStorage.ttl_expired self now fs name = false →
            ∀ p, p = LocalStorage.payload_path self name ∨ p = LocalStorage.metadata_path self name →
            ¬ Exists (fun n => p = LocalStorage.payload_path self n ∨
                               p = LocalStorage.metadata_path self n) gone) as Hkept.
  { intros name Hname Hne p Hp (g & Hg & Hpg)%Exists_exists.
    apply Hgone in Hg as [Hg Hge].
    apply artifacts_elem in Hname as [_ Hvn]. apply artifacts_elem in Hg as [_ Hvg].
    destruct Hp as [-> | ->], Hpg as [Heq|Heq].
    - apply payload_path_inj in Heq as ->. congruence.
    - by apply symmetry, metadata_path_ne_payload in Heq.
    - by apply metadata_path_ne_payload in Heq.
    - apply metadata_path_inj in Heq as ->. congruence. }
  assert (∀ p, foldl (LocalStorage.remove_artifact self) fs gone !! p = None ∨
               foldl (LocalStorage.remove_artifact self) fs gone !! p = fs !! p) as Hsub.
  { intros p. rewrite remove_all_lookup. case_decide; eauto. }
  split_and!.
  - by apply cleanupExpiredFiles_spec.
  - apply NoDup_ListNoDup, List.NoDup_filter, NoDup_ListNoDup, artifacts_NoDup.
  - intros name. rewrite Hgone, artifacts_stored. split.
    + intros [Hs He]. split; [done|]. apply ttl_expired_outlived; [|done].
      by apply Hnames, artifacts_stored.
    + intros [Hs Ho]. split; [done|]. apply ttl_expired_outlived; [|done].
      by apply Hnames, artifacts_stored.
  - intros name Hin. rewrite !remove_all_lookup.
    rewrite !decide_True; [done| |]; apply Exists_exists; exists name; eauto.
  - intros p Hp. rewrite remove_all_lookup, decide_False; [done|].
    intros (n & Hn & Hpn)%Exists_exists. destruct (Hp n Hn). tauto.
  - set (fs' := foldl (LocalStorage.remove_artifact self) fs gone) in *.
    assert (∀ n, n ∈ LocalStorage.artifacts self fs' →
              n ∈ LocalStorage.artifacts self fs ∧ LocalStorage.ttl_expired self now fs n = false)
      as Hleft.
    { intros n [[c Hc] Hv]%artifacts_elem.
      assert (n ∈ LocalStorage.artifacts self fs) as Hn.
      { apply artifacts_elem. split; [|done]. destruct (Hsub (LocalStorage.payload_path self n)) as [H0|H0].
        - congruence.
        - rewrite <- H0. eauto. }
      split; [done|]. destruct (LocalStorage.ttl_expired self now fs n) eqn:He; [|done].
      exfalso. unfold fs' in Hc. rewrite remove_all_lookup in Hc.
      rewrite decide_True in Hc; [done|]. apply Exists_exists. exists n. split; [|eauto].
      by apply Hgone. }
    assert (LocalStorage.directory_ok self fs') as Hok'.
    { unfold LocalStorage.directory_ok in *. rewrite Forall_forall in *.
      intros n [c Hc]%readdir_elem. apply Hok, readdir_elem.
      destruct (Hsub (app (LocalStorage.storagePath self) [n])) as [H0|H0].
      - congruence.
      - rewrite <- H0. eauto. }
    rewrite cleanupExpiredFiles_spec by done. cbv zeta.
    rewrite filter_none; [done|].
    intros n Hn. destruct (Hleft n Hn) as [Hn0 He].
    rewrite <- He. unfold LocalStorage.ttl_expired.
    rewrite !getMetadata_entry by (by apply Hnames).
    unfold fs'. rewrite remove_all_lookup, decide_False; [done|].
    eapply Hkept; eauto.
Qed.

(** A witness of C7: the directory of [Examples] that holds [a.mp4] and
    [c.mp4] with their records, for the engine that reads dates without
    time. *)
Lemma C7_sweep_removes_exactly_the_ttl_expired_witness :
  let self := Examples.provider24 in
  let now := 25 * Examples.hour in
  let fs := Examples.files_c in
  ∃ gone fs',
    @LocalStorage.cleanupExpiredFiles Examples.engine self now fs
      = (Ok (Z.of_nat (length gone)), fs')
    ∧ NoDup gone
    ∧ (∀ name, name ∈ gone ↔
         LocalStorage.stored self fs name
         ∧ @LocalStorage.outlived Examples.engine self now fs name)
    ∧ (∀ name, name ∈ gone →
         fs' !! LocalStorage.payload_path self name = None ∧
         fs' !! LocalStorage.metadata_path self name = None)
    ∧ (∀ p, (∀ name, name ∈ gone → p ≠ LocalStorage.payload_path self name ∧
                                    p ≠ LocalStorage.metadata_path self name) →
         fs' !! p = fs !! p)
    ∧ @LocalStorage.cleanupExpiredFiles Examples.engine self now fs' = (Ok 0, fs').
Proof.
  apply (@C7_sweep_removes_exactly_the_ttl_expired Examples.engine Examples.provider24
           (25 * Examples.hour) Examples.files_c).
  unfold LocalStorage.directory_ok.
  apply (bool_decide_unpack (Forall Path.file_name _)). vm_compute. exact I.
Defined.

(** C7 as the specification states it fails in both directions.  After
    25 hours the provider with 24 hours to live deletes [a.mp4], whose
    recorded [expiresAt] (48 hours) has not passed; the provider with 48
    hours to live keeps [b.mp4], whose recorded [expiresAt] (24 hours)
    has passed. *)
Lemma C7_counterexample :
  (is_Some (Examples.files_a !! LocalStorage.payload_path Examples.provider24 "a.mp4")
   ∧ @LocalStorage.recorded_expiry_passed Examples.engine Examples.provider24
       (25 * Examples.hour) Examples.files_a "a.mp4" = false
   ∧ (@LocalStorage.cleanupExpiredFiles Examples.engine Examples.provider24
        (25 * Examples.hour) Examples.files_a).2
       !! LocalStorage.payload_path Examples.provider24 "a.mp4" = None)
  ∧ (@LocalStorage.recorded_expiry_passed Examples.engine Examples.provider48
       (25 * Examples.hour) Examples.files_b "b.mp4" = true
     ∧ @LocalStorage.cleanupExpiredFiles Examples.engine Examples.provider48
         (25 * Examples.hour) Examples.files_b
       = (Ok 0, Examples.files_b)).
Proof.
  split_and!.
  - vm_compute. eauto.
  - vm_compute. reflexivity.
  - vm_compute. reflexivity.
  - vm_compute. reflexivity.
  - vm_compute. reflexivity.
Qed.

(** For a name whose last segment is an ordinary file name, the payload
    and the metadata record are entries of the storage directory. *)
Lemma sanitized_paths_inside (self : LocalStorage.t) filename :
  filename ≠ "" →
  Path.basename filename ≠ "" → Path.basename filename ≠ "." → Path.basename filename ≠ ".." →
  LocalStorage._getFilePath self filename
    = Ok (LocalStorage.payload_path self (Path.basename filename))
  ∧ LocalStorage._getMetadataPath self filename
    = Ok (LocalStorage.metadata_path self (Path.basename filename))
  ∧ Path.inside (LocalStorage.storagePath self)
      (LocalStorage.payload_path self (Path.basename filename))
  ∧ Path.inside (LocalStorage.storagePath self)
      (LocalStorage.metadata_path self (Path.basename filename)).
Proof.
  intros Hne H1 H2 H3.
  assert (LocalStorage._getFilePath self filename
          = Ok (LocalStorage.payload_path self (Path.basename filename))) as Hp.
  { unfold LocalStorage._getFilePath, LocalStorage.payload_path, Path.join.
    destruct (String.eqb_spec filename ""); [done|].
    destruct (String.eqb_spec (Path.basename filename) ""); [done|].
    destruct (String.eqb_spec (Path.basename filename) "."); [done|].
    by destruct (String.eqb_spec (Path.basename filename) ".."). }
  split_and!; [done| | |].
  - unfold LocalStorage._getMetadataPath. rewrite Hp.
    unfold LocalStorage.payload_path, LocalStorage.metadata_path.
    by rewrite add_extension_entry.
  - by exists (Path.basename filename), [].
  - by exists (Path.basename filename ++ ".meta.json"), [].
Qed.

(** C6: the sanitised name is the last segment of the name given, and
    that segment can be [..].  [../../../etc/passwd] is stored as
    [passwd] in the storage directory, but for the name [..] the
    provider works on the directory above the storage directory and on a
    metadata record next to it: [exists] answers true in an empty store,
    and [getMetadata] returns the content of a file outside the storage
    directory. *)
Theorem C6_dot_dot_leaves_the_storage_root :
  let self := Examples.provider24 in
  let root := LocalStorage.storagePath self in
  (LocalStorage.save self "../../../etc/passwd" (Some Examples.payload) ∅ 0 0 ∅).2
     !! (app root ["passwd"]) = Some (FS.Data Examples.payload)
  ∧ LocalStorage._getFilePath self ".." = Ok ["data"]
  ∧ ¬ Path.inside root ["data"]
  ∧ LocalStorage._getMetadataPath self ".." = Ok ["data.meta.json"]
  ∧ ¬ Path.inside root ["data.meta.json"]
  ∧ LocalStorage.exists_ self ".." ∅ = Ok true
  ∧ LocalStorage.getMetadata self ".." Examples.files_outside = Ok {[ "secret" := VStr "x" ]}.
Proof.
  cbv zeta. split_and!; try (vm_compute; reflexivity).
  - intros (name & rest & H). vm_compute in H. discriminate.
  - intros (name & rest & H). vm_compute in H. discriminate.
Qed.

(** C8: [cleanup] reads [removedCount] and [cleanedCount] from what the
    two sub-calls return, and both return a number: the counts it reports
    are 0 in every pass.  In the world of [Examples] the storage provider
    deletes one artifact and the job manager one job, both sub-calls
    succeed, and the pass reports 0 and 0. *)
Theorem C8_cleanup_always_reports_zero {E : Engine} :
  (∀ self now now' w,
     CleanupScheduler.filesRemoved (CleanupScheduler.cleanup self now now' w).1 = VNum 0 ∧
     CleanupScheduler.jobsCleaned (CleanupScheduler.cleanup self now now' w).1 = VNum 0)
  ∧ (let now := 100 * Examples.hour in
     let w := Examples.world in
     (LocalStorage.cleanupExpiredFiles Examples.provider24 now (CleanupScheduler.files w)).1 = Ok 1
     ∧ (∃ store', JobManager.cleanupExpiredJobs (VNum 72) now (CleanupScheduler.store w)
                  = Ok (1, store'))
     ∧ (CleanupScheduler.cleanup Examples.scheduler now now w).1
       = {| CleanupScheduler.filesRemoved := VNum 0;
            CleanupScheduler.jobsCleaned := VNum 0;
            CleanupScheduler.errors := [] |}).
Proof.
  split.
  - intros self now now' w. unfold CleanupScheduler.cleanup.
    destruct (LocalStorage.cleanupExpiredFiles _ _ _) as [[n|m] files'];
      destruct (JobManager.cleanupExpiredJobs _ _ _) as [[k st]|m']; by cbn.
  - cbv zeta. split_and!.
    + vm_compute. reflexivity.
    + eexists. vm_compute. reflexivity.
    + vm_compute. reflexivity.
Qed.
(** ** The worker *)

Section StoreSteps.
Import JobManager Worker.
Context {E : Engine}.
Implicit Types (st jm : JobManager.t) (jobId : string).

Lemma quiet_refl jm : quiet jm jm.
Proof. by split. Qed.

Lemma quiet_trans jm1 jm2 jm3 : quiet jm1 jm2 → quiet jm2 jm3 → quiet jm1 jm3.
Proof.
  intros H12 H23 Hnd. destruct (H12 Hnd) as [Hnd2 H2]. destruct (H23 Hnd2) as [Hnd3 H3].
  split; eauto.
Qed.

Lemma quiet_quiet_but jobId jm1 jm2 jm3 :
  quiet jm1 jm2 → quiet_but jobId jm2 jm3 → quiet_but jobId jm1 jm3.
Proof.
  intros H12 H23 Hnd. destruct (H12 Hnd) as [Hnd2 H2]. destruct (H23 Hnd2) as [Hnd3 H3].
  split; [done|]. intros id H. destruct (H3 id H); eauto.
Qed.

Lemma quiet_but_quiet jobId jm1 jm2 jm3 :
  quiet_but jobId jm1 jm2 → quiet jm2 jm3 → quiet_but jobId jm1 jm3.
Proof.
  intros H12 H23 Hnd. destruct (H12 Hnd) as [Hnd2 H2]. destruct (H23 Hnd2) as [Hnd3 H3].
  split; eauto.
Qed.

Lemma quiet_same_jobs jm jm' : jobs jm' = jobs jm → quiet jm jm'.
Proof.
  intros H Hnd. split; [by rewrite H|]. unfold status_of, field_of, job_of. by rewrite H.
Qed.

Lemma status_of_set_eq jm jm' jobId job' :
  jobs jm' = map_set jobId job' (jobs jm) → status_of jm' jobId = job' !! "status".
Proof. intros H. unfold status_of, field_of, job_of. by rewrite H, map_get_set_eq. Qed.

Lemma status_of_set_ne jm jm' jobId jobId' job' :
  jobs jm' = map_set jobId job' (jobs jm) → jobId ≠ jobId' →
  status_of jm' jobId' = status_of jm jobId'.
Proof. intros H Hne. unfold status_of, field_of, job_of. by rewrite H, map_get_set_ne. Qed.

Lemma quiet_set jm jm' jobId job' :
  jobs jm' = map_set jobId job' (jobs jm) →
  job' !! "status" ≠ Some (VStr "processing") ∨ job' !! "status" = status_of jm jobId →
  quiet jm jm'.
Proof.
  intros H Hs Hnd. split; [rewrite H; by apply map_keys_set_NoDup|].
  intros id Hid. destruct (decide (jobId = id)) as [<-|Hne].
  - rewrite (status_of_set_eq _ _ _ _ H) in Hid. destruct Hs as [Hs|Hs]; [done|congruence].
  - by rewrite (status_of_set_ne _ _ _ _ _ H Hne) in Hid.
Qed.

Lemma status_of_None jm jobId : job_of jm jobId = None → status_of jm jobId = None.
Proof. unfold status_of, field_of. by intros ->. Qed.

Lemma quiet_changed jm jobId job' h :
  job' !! "status" ≠ Some (VStr "processing") ∨ job' !! "status" = status_of jm jobId →
  quiet jm (changed jobId job' h jm).
Proof. intros Hs. by eapply quiet_set. Qed.

Lemma createJob_quiet requestData jobId now jm :
  quiet jm (createJob requestData jobId now jm).2.
Proof.
  destruct (truthy requestData) eqn:Ht.
  - rewrite createJob_accepted by done. cbv zeta. cbn [snd].
    eapply quiet_set; [reflexivity|]. left. by vm_compute.
  - rewrite createJob_refused by done. apply quiet_refl.
Qed.

Lemma cleanupExpiredJobs_quiet olderThanHours now jm n jm' :
  cleanupExpiredJobs olderThanHours now jm = Ok (n, jm') → quiet jm jm'.
Proof.
  unfold cleanupExpiredJobs. destruct olderThanHours; try done.
  destruct (_ <=? 0); [done|]. intros [= _ <-] Hnd. split; cbn [jobs].
  - by apply map_keys_filter_NoDup.
  - intros id. unfold status_of, field_of, job_of. cbn [jobs].
    destruct (map_get id (List.filter _ _)) as [job|] eqn:Hj; [|done].
    by rewrite (map_get_filter _ _ _ _ Hnd Hj).
Qed.

Lemma getJob_jobs jobId jm : jobs (getJob jobId jm).2 = jobs jm.
Proof.
  unfold getJob. destruct (String.eqb jobId ""); [done|].
  by destruct (map_get jobId (jobs jm)).
Qed.

Lemma getJob_null jobId jm :
  truthy (getJob jobId jm).1 = false → jobId = "" ∨ job_of jm jobId = None.
Proof.
  unfold getJob, job_of. destruct (String.eqb_spec jobId ""); [by left|].
  destruct (map_get jobId (jobs jm)); [done|by right].
Qed.

Lemma getJob_found jobId jm :
  truthy (getJob jobId jm).1 = true → jobId ≠ "" ∧ is_Some (job_of jm jobId).
Proof.
  unfold getJob, job_of. destruct (String.eqb_spec jobId ""); [done|].
  destruct (map_get jobId (jobs jm)); [eauto|done].
Qed.

Lemma getJobsByStatus_jobs status jm vs jm' :
  getJobsByStatus status jm = Ok (vs, jm') → jobs jm' = jobs jm.
Proof.
  unfold getJobsByStatus. destruct (negb _); [done|]. destruct (negb _); [done|].
  destruct (copies _ _). by intros [= _ <-].
Qed.

Lemma updateJobProgress_cases jobId step p now jm :
  0 ≤ p ≤ 100 →
  ends (quiet jm) jobId jm (updateJobProgress jobId step (VNum p) now jm).
Proof.
  intros Hp. unfold updateJobProgress, job_of, ends.
  destruct (String.eqb_spec jobId ""); [left; eauto|].
  replace ((p <? 0) || (100 <? p)) with false by lia.
  destruct (job_of jm jobId) as [job|] eqn:Hj; unfold job_of in Hj; rewrite Hj;
    [|left; eauto].
  eapply quiet_set; [reflexivity|]. right.
  unfold status_of, field_of, job_of. rewrite Hj. cbn.
  by repeat (rewrite lookup_insert_ne by done).
Qed.

Lemma setJobCompleted_cases jobId r now jm :
  ends (fun jm' => quiet jm jm' ∧ status_of jm' jobId = Some (VStr "completed"))
       jobId jm (setJobCompleted jobId (VRef r) now jm).
Proof.
  unfold ends.
  destruct (decide (jobId = "")) as [Hid|Hid].
  { destruct (setJobCompleted_unchecked jobId (VRef r) now jm) as [m ->]; eauto. }
  destruct (job_of jm jobId) as [job|] eqn:Hj.
  2:{ destruct (setJobCompleted_unchecked jobId (VRef r) now jm) as [m ->]; eauto. }
  assert (∃ outcome job' h,
            setJobCompleted jobId (VRef r) now jm = (outcome, changed jobId job' h jm)
            ∧ (∀ m, outcome = Throw m → m ≠ "")
            ∧ job' !! "status" = Some (VStr "completed")) as (outcome & job' & h & -> & Hm & Hs).
  { unfold setJobCompleted, job_of in *.
    destruct (String.eqb_spec jobId ""); [done|]. rewrite Hj. cbn [negb truthy].
    unfold alloc. cbv zeta. unfold changed.
    destruct (circular _ _); eexists _, _, _; (split; [reflexivity|]);
      (split; [by intros m [= <-]|lookup_assigned]). }
  assert (quiet jm (changed jobId job' h jm)) as Hq.
  { apply quiet_changed. left. by rewrite Hs. }
  destruct outcome as [[]|m].
  - split; [done|]. by rewrite status_of_changed.
  - right. split_and!; [done|by apply Hm|done].
Qed.

Lemma setJobFailed_cases jobId errorMessage errorStack now jm :
  match setJobFailed jobId errorMessage errorStack now jm with
  | (Ok _, jm') => quiet jm jm' ∧ status_of jm' jobId = Some (VStr "failed")
  | (Throw _, jm') =>
      jm' = jm ∧ (jobId = "" ∨ truthy errorMessage = false ∨ job_of jm jobId = None)
  end.
Proof.
  destruct (decide (jobId = "")) as [Hid|Hid].
  { destruct (setJobFailed_unchecked jobId errorMessage errorStack now jm) as [m ->]; eauto. }
  destruct (truthy errorMessage) eqn:Ht.
  2:{ destruct (setJobFailed_unchecked jobId errorMessage errorStack now jm) as [m ->]; eauto. }
  destruct (job_of jm jobId) as [job|] eqn:Hj.
  2:{ destruct (setJobFailed_unchecked jobId errorMessage errorStack now jm) as [m ->]; eauto. }
  destruct (setJobFailed_checked jobId errorMessage errorStack now jm job)
    as (job' & h & -> & Hs & _); [done..|].
  split.
  - apply quiet_changed. left. by rewrite Hs.
  - by rewrite status_of_changed.
Qed.

Lemma updateJobStatus_processing_cases jobId now now' jm :
  ends (fun jm' => quiet_but jobId jm jm' ∧ jobId ≠ "" ∧ is_Some (job_of jm' jobId))
       jobId jm (updateJobStatus jobId (VStr "processing") VUndef now now' jm).
Proof.
  unfold updateJobStatus, job_of, ends.
  destruct (String.eqb_spec jobId ""); [left; eauto|].
  rewrite bool_decide_true by (unfold statuses; set_solver). cbn [negb].
  destruct (map_get jobId (jobs jm)) as [job|] eqn:Hj; [|left; eauto].
  cbn [own_properties]. rewrite bool_decide_true by done. cbn [negb andb jobs].
  split_and!; [|done|rewrite map_get_set_eq; eauto].
  intros Hnd. split; [by apply map_keys_set_NoDup|].
  intros id Hid. destruct (decide (jobId = id)) as [<-|Hne]; [by left|right].
  by erewrite status_of_set_ne in Hid by (done || reflexivity).
Qed.

(** A copy is a new object with the properties of the job; the objects
    that exist are left as they are. *)
Lemma copies_keeps js : ∀ h l, is_Some (h !! l) → (copies js h).2 !! l = h !! l.
Proof.
  induction js as [|job js IH]; intros h l Hl; [done|].
  cbn [copies]. unfold copy, alloc. cbv zeta.
  specialize (IH (<[fresh (dom h) := job]> h) l).
  destruct (copies js _) as [vs h2]. cbn [snd] in *.
  assert (l ≠ fresh (dom h)) as Hne.
  { intros ->. rewrite fresh_unused in Hl. by destruct Hl. }
  rewrite IH; rewrite lookup_insert_ne; done.
Qed.

Lemma copies_head job js h :
  ∃ l vs h', copies (job :: js) h = (VRef l :: vs, h') ∧ h' !! l = Some job.
Proof.
  cbn [copies]. unfold copy, alloc. cbv zeta.
  pose proof (copies_keeps js (<[fresh (dom h) := job]> h) (fresh (dom h))) as Hk.
  destruct (copies js _) as [vs h2]. cbn [snd] in Hk.
  eexists _, _, _. split; [reflexivity|].
  rewrite Hk; rewrite lookup_insert_eq; eauto.
Qed.

End StoreSteps.

Section TaskSteps.
Import JobManager Worker.
Implicit Types (w : Worker.t) (jobId : string) (ph : phase).

Lemma quiet_is_quiet_but jobId jm jm' : quiet jm jm' → quiet_but jobId jm jm'.
Proof. intros H Hnd. destruct (H Hnd) as [? ?]. split; eauto. Qed.

Lemma read_Throw h v k m : read h v k = Throw m → m ≠ "".
Proof. unfold read. destruct v; intros [= <-]; done. Qed.

(** The [catch] block: the job is not left in status [processing],
    unless the error has no message or the job id is empty. *)
Lemma job_failed_spec jobId message stack now w :
  ∃ jm', job_failed jobId message stack now w = set_jobManager jm' (suspend jobId AwaitCleanup w)
    ∧ quiet (jobManager w) jm'
    ∧ (status_of jm' jobId = Some (VStr "processing") →
       status_of (jobManager w) jobId = Some (VStr "processing")
       ∧ (truthy message = false ∨ jobId = "")).
Proof.
  unfold job_failed.
  pose proof (setJobFailed_cases jobId message stack now (jobManager w)) as Hc.
  destruct (setJobFailed _ _ _ _ _) as [[[]|m] jm']; cbn [snd].
  - exists jm'. destruct Hc as [Hq Hs]. split_and!; [done|done|]. congruence.
  - exists jm'. destruct Hc as [-> Hc]. split_and!; [done|apply quiet_refl|].
    intros Hp. split; [done|]. destruct Hc as [?|[?|Hn]]; eauto.
    apply status_of_None in Hn. congruence.
Qed.

(** A call of the job manager in the [try] block. *)
Lemma attempt_spec jobId now (r : result unit * JobManager.t) w ph' jm0 :
  jobs jm0 = jobs (jobManager w) →
  ends (fun jm' => quiet jm0 jm' ∧ status_of jm' jobId ≠ Some (VStr "processing")
                   ∨ quiet jm0 jm' ∧ running ph') jobId jm0 r →
  ph' ≠ Settled →
  ∃ jm' ph'', attempt jobId now r (set_jobManager jm0 w) (suspend jobId ph')
              = set_jobManager jm' (suspend jobId ph'' w)
    ∧ ph'' ≠ Settled ∧ quiet (jobManager w) jm'
    ∧ (status_of jm' jobId = Some (VStr "processing") →
       running ph'' ∨ (status_of (jobManager w) jobId = Some (VStr "processing") ∧ jobId = "")).
Proof.
  intros Hj Hr Hph. assert (quiet (jobManager w) jm0) as Hq0 by (by apply quiet_same_jobs).
  destruct r as [[[]|m] jm1]; cbn [attempt ends] in *.
  - exists jm1, ph'. split_and!; [done|done| |].
    + destruct Hr as [[Hq _]|[Hq _]]; by eapply quiet_trans.
    + intros Hp. destruct Hr as [[_ Hn]|[_ Hrun]]; [done|by left].
  - unfold thrown.
    destruct (job_failed_spec jobId (VStr m) (VStr ("Error" ++ ": " ++ m)) now
                (set_jobManager jm1 (set_jobManager jm0 w)))
      as (jm' & -> & Hq & Hs).
    exists jm', AwaitCleanup. cbn [jobManager set_jobManager] in Hq, Hs.
    destruct Hr as [[-> Hwhy]|(Hq1 & Hm & Hid)].
    + split_and!; [done|done|by eapply quiet_trans|].
      intros Hp. destruct (Hs Hp) as [Hp0 _].
      right. destruct Hwhy as [->|Hn].
      * split; [|done]. unfold status_of, field_of, job_of in *. by rewrite <- Hj.
      * apply status_of_None in Hn. congruence.
    + split_and!; [done|done|eapply quiet_trans; [done|by eapply quiet_trans]|].
      intros Hp. destruct (Hs Hp) as [_ [Hf|?]]; [|done].
      cbn in Hf. by destruct (String.eqb_spec m "").
Qed.

(** A running call of [processJob] goes on. *)
Lemma resume_running jobId o now w ph :
  tasks w !! jobId = Some ph → running ph →
  ∃ jm' ph', resume jobId o now w = set_jobManager jm' (suspend jobId ph' w)
    ∧ ph' ≠ Settled ∧ quiet (jobManager w) jm'
    ∧ (status_of jm' jobId = Some (VStr "processing") →
       running ph' ∨
       (status_of (jobManager w) jobId = Some (VStr "processing") ∧
        (jobId = "" ∨ match o with Rejected message _ => truthy message = false
                              | Resolved _ => False end))).
Proof.
  intros Ht [Hr1 Hr2]. unfold resume. rewrite Ht.
  assert (∀ ph', ph' ≠ AwaitCleanup → ph' ≠ Settled →
            ∃ jm' ph'', set_jobManager (jobManager w) (suspend jobId ph' w)
                        = set_jobManager jm' (suspend jobId ph'' w)
              ∧ ph'' ≠ Settled ∧ quiet (jobManager w) jm'
              ∧ (status_of jm' jobId = Some (VStr "processing") →
                 running ph'' ∨
                 (status_of (jobManager w) jobId = Some (VStr "processing") ∧
                  (jobId = "" ∨ match o with Rejected message _ => truthy message = false
                                        | Resolved _ => False end)))) as Hmove.
  { intros ph' ? ?. exists (jobManager w), ph'. split_and!; [done|done|apply quiet_refl|].
    intros _. by left. }
  assert (∀ r ph',
            ends (fun jm' => quiet (jobManager w) jm'
                             ∧ status_of jm' jobId ≠ Some (VStr "processing")
                             ∨ quiet (jobManager w) jm' ∧ running ph')
                 jobId (jobManager w) r →
            ph' ≠ Settled →
            ∃ jm' ph'', attempt jobId now r w (suspend jobId ph')
                        = set_jobManager jm' (suspend jobId ph'' w)
              ∧ ph'' ≠ Settled ∧ quiet (jobManager w) jm'
              ∧ (status_of jm' jobId = Some (VStr "processing") →
                 running ph'' ∨
                 (status_of (jobManager w) jobId = Some (VStr "processing") ∧
                  (jobId = "" ∨ match o with Rejected message _ => truthy message = false
                                        | Resolved _ => False end)))) as Hattempt.
  { intros r ph' Hr Hph.
    destruct (attempt_spec jobId now r w ph' (jobManager w) eq_refl Hr Hph)
      as (jm' & ph'' & Heq & ? & ? & Hs).
    exists jm', ph''. split_and!; [by destruct w|done|done|].
    intros Hp. destruct (Hs Hp) as [?|[? ?]]; eauto. }
  assert (∀ step p ph', 0 ≤ p ≤ 100 → running ph' →
            ends (fun jm' => quiet (jobManager w) jm'
                             ∧ status_of jm' jobId ≠ Some (VStr "processing")
                             ∨ quiet (jobManager w) jm' ∧ running ph')
                 jobId (jobManager w)
                 (updateJobProgress jobId step (VNum p) now (jobManager w))) as Hprogress.
  { intros step p ph' Hp Hrun.
    pose proof (updateJobProgress_cases jobId step p now (jobManager w) Hp) as Hc.
    unfold ends in *. destruct (updateJobProgress _ _ _ _ _) as [[[]|m] jm']; eauto. }
  destruct o as [resultData|message stack].
  - destruct ph; try done.
    + destruct (Hmove AwaitScreenshot) as (jm' & ph'' & Heq & ?); [done|done|].
      exists jm', ph''. split; [|done]. rewrite <- Heq. by destruct w.
    + apply Hattempt; [|done]. by apply Hprogress.
    + destruct (Hmove AwaitCompose) as (jm' & ph'' & Heq & ?); [done|done|].
      exists jm', ph''. split; [|done]. rewrite <- Heq. by destruct w.
    + apply Hattempt; [|done]. by apply Hprogress.
    + destruct (Hmove AwaitSave) as (jm' & ph'' & Heq & ?); [done|done|].
      exists jm', ph''. split; [|done]. rewrite <- Heq. by destruct w.
    + unfold alloc. cbv zeta.
      set (jm1 := {| jobs := jobs (jobManager w); objects := _ |}).
      pose proof (setJobCompleted_cases jobId (fresh (dom (objects (jobManager w))))
                    now jm1) as Hc.
      destruct (attempt_spec jobId now
                  (setJobCompleted jobId (VRef (fresh (dom (objects (jobManager w))))) now jm1)
                  w AwaitCleanup jm1 eq_refl) as (jm' & ph'' & Heq & ? & ? & Hs); [|done|].
      { unfold ends in *. destruct (setJobCompleted _ _ _ _) as [[[]|m] jm']; [|done].
        left. destruct Hc as [? Hc]. split; [done|congruence]. }
      exists jm', ph''. split_and!; [done|done|done|].
      intros Hp. destruct (Hs Hp) as [?|[? ?]]; eauto.
  - destruct (job_failed_spec jobId message stack now w) as (jm' & Heq & Hq & Hs).
    exists jm', AwaitCleanup. split_and!; [by destruct ph|done|done|].
    intros Hp. right. destruct (Hs Hp) as [? [?|?]]; eauto.
Qed.

(** A call of [processJob] up to its first [await]. *)
Lemma processJob_spec jobId now w :
  ∃ jm' ph', processJob jobId now w
             = set_jobManager jm'
                 (suspend jobId ph' (set_currentJobCount (currentJobCount w + 1) w))
    ∧ ph' ≠ Settled ∧ quiet_but jobId (jobManager w) jm'
    ∧ (status_of jm' jobId = Some (VStr "processing") →
       running ph' ∨ (status_of (jobManager w) jobId = Some (VStr "processing") ∧ jobId = "")).
Proof.
  unfold processJob. cbv zeta.
  set (w1 := set_currentJobCount (currentJobCount w + 1) w).
  pose proof (getJob_jobs jobId (jobManager w1)) as Hj0.
  pose proof (getJob_null jobId (jobManager w1)) as Hnull.
  pose proof (getJob_found jobId (jobManager w1)) as Hfound.
  destruct (getJob jobId (jobManager w1)) as [job jm0]. cbn [fst snd] in Hj0, Hnull, Hfound.
  change (jobManager w1) with (jobManager w) in *.
  assert (quiet (jobManager w) jm0) as Hq0 by (by apply quiet_same_jobs).
  assert (∀ jobId', status_of jm0 jobId' = status_of (jobManager w) jobId') as Hs0.
  { intros id. unfold status_of, field_of, job_of. by rewrite Hj0. }
  (* the catch block, entered with the store [jm1] *)
  assert (∀ kind m jm1,
            quiet_but jobId (jobManager w) jm1 →
            (jobId = "" ∨ job_of jm0 jobId = None) ∧ jm1 = jm0 ∨ m ≠ "" ∧ jobId ≠ "" →
            ∃ jm' ph', thrown jobId kind m now (set_jobManager jm1 w1)
                       = set_jobManager jm' (suspend jobId ph' w1)
              ∧ ph' ≠ Settled ∧ quiet_but jobId (jobManager w) jm'
              ∧ (status_of jm' jobId = Some (VStr "processing") →
                 running ph' ∨
                 (status_of (jobManager w) jobId = Some (VStr "processing") ∧ jobId = "")))
    as Hfail.
  { intros kind m jm1 Hq1 Hwhy. unfold thrown.
    destruct (job_failed_spec jobId (VStr m) (VStr (kind ++ ": " ++ m)) now (set_jobManager jm1 w1))
      as (jm' & -> & Hq & Hs).
    exists jm', AwaitCleanup. cbn [jobManager set_jobManager] in Hq, Hs.
    split_and!; [done|done| |].
    - by eapply quiet_but_quiet.
    - intros Hp. destruct (Hs Hp) as [Hp0 Hbad]. right.
      destruct Hwhy as [[Hwhy ->]|[Hm Hid]].
      + rewrite Hs0 in Hp0. split; [done|]. destruct Hwhy as [?|Hn]; [done|].
        apply status_of_None in Hn. rewrite Hs0 in Hn. congruence.
      + exfalso. destruct Hbad as [Hf|?]; [|done].
        cbn in Hf. by destruct (String.eqb_spec m ""). }
  destruct (truthy job) eqn:Hjob; cbn [negb].
  2:{ apply Hfail; [by apply quiet_is_quiet_but|]. left. split; [|done].
      destruct (Hnull eq_refl) as [?|Hn]; [by left|right].
      unfold job_of in *. by rewrite Hj0. }
  destruct (Hfound eq_refl) as [Hid _].
  destruct (circular _ _).
  { apply Hfail; [by apply quiet_is_quiet_but|]. by right. }
  pose proof (updateJobStatus_processing_cases jobId now now jm0) as Hc.
  change (jobManager (set_jobManager jm0 w1)) with jm0.
  unfold ends in Hc.
  destruct (updateJobStatus jobId (VStr "processing") VUndef now now jm0) as [[[]|m] jm1];
    cbn [attempt].
  - destruct Hc as (Hq1 & Hne & Hsome).
    change (jobManager (set_jobManager jm1 (set_jobManager jm0 w1))) with jm1.
    pose proof (updateJobProgress_cases jobId (VStr "generating_screenshot") 20 now jm1) as Hc2.
    unfold ends in Hc2.
    destruct (updateJobProgress _ _ _ _ jm1) as [[[]|m] jm2]; cbn [attempt].
    + assert (quiet_but jobId (jobManager w) jm2) as Hq2.
      { eapply quiet_but_quiet; [|apply Hc2; lia]. by eapply quiet_quiet_but. }
      destruct (read _ _ _) as [v|m] eqn:Hread.
      * exists jm2, AwaitRender. split_and!; [done|done|done|by left].
      * apply (Hfail "TypeError" m jm2 Hq2). right. split; [|done].
        by apply read_Throw in Hread.
    + destruct Hc2 as [[-> Hwhy]|(Hq2 & Hm & _)]; [lia| |].
      * exfalso. destruct Hwhy as [?|Hn]; [done|]. rewrite Hn in Hsome. by destruct Hsome.
      * apply (Hfail "Error" m jm2); [|by right].
        eapply quiet_but_quiet; [|done]. by eapply quiet_quiet_but.
  - destruct Hc as [[-> Hwhy]|(Hq1 & Hm & _)].
    + apply (Hfail "Error" m jm0); [by apply quiet_is_quiet_but|]. by left.
    + apply (Hfail "Error" m jm1); [|by right].
      apply quiet_is_quiet_but. by eapply quiet_trans.
Qed.

End TaskSteps.

Section Bookkeeping.
Import JobManager Worker.
Implicit Types (w : Worker.t) (jobId : string) (ph : phase) (ts : gmap string phase).

Lemma live_insert_new ts jobId ph :
  ts !! jobId = None → ph ≠ Settled →
  size (live_of (<[jobId:=ph]> ts)) = S (size (live_of ts)).
Proof.
  intros Hn Hph. unfold live_of. rewrite map_filter_insert_True by done.
  apply map_size_insert_None, map_lookup_filter_None_2. by left.
Qed.

Lemma live_insert_live ts jobId ph0 ph :
  ts !! jobId = Some ph0 → ph0 ≠ Settled → ph ≠ Settled →
  size (live_of (<[jobId:=ph]> ts)) = size (live_of ts).
Proof.
  intros Hs Hph0 Hph. unfold live_of. rewrite map_filter_insert_True by done.
  apply map_size_insert_Some. exists ph0. by apply map_lookup_filter_Some_2.
Qed.

Lemma live_insert_settled ts jobId ph0 :
  ts !! jobId = Some ph0 → ph0 ≠ Settled →
  S (size (live_of (<[jobId:=Settled]> ts))) = size (live_of ts).
Proof.
  intros Hs Hph0. unfold live_of.
  rewrite map_filter_insert_False by (cbn; tauto).
  rewrite map_filter_delete, map_size_delete_Some.
  - assert (is_Some (filter (λ kv : string * phase, kv.2 ≠ Settled) ts !! jobId)) as Hin.
    { exists ph0. by apply map_lookup_filter_Some_2. }
    apply map_size_ne_0_lookup_2 in Hin. lia.
  - exists ph0. by apply map_lookup_filter_Some_2.
Qed.

Lemma live_delete_settled ts jobId :
  ts !! jobId = Some Settled → live_of (delete jobId ts) = live_of ts.
Proof.
  intros Hs. unfold live_of. apply map_filter_delete_not.
  intros ph Hph. rewrite Hs in Hph. injection Hph as <-. cbn. tauto.
Qed.

Lemma accounted_ext w w' :
  accounted w → tasks w' = tasks w → currentJobCount w' = currentJobCount w →
  processingJobs w' = processingJobs w → pendingTicks w' = pendingTicks w → accounted w'.
Proof.
  intros [H1 H2 H3] Ht Hc Hp Hk. split; unfold live; rewrite ?Ht, ?Hc, ?Hp, ?Hk; done.
Qed.

Lemma accounted_phase w w' jobId ph ph' :
  accounted w → tasks w !! jobId = Some ph → ph ≠ Settled → ph' ≠ Settled →
  tasks w' = <[jobId:=ph']> (tasks w) → currentJobCount w' = currentJobCount w →
  processingJobs w' = processingJobs w → pendingTicks w' = pendingTicks w → accounted w'.
Proof.
  intros [H1 H2 H3] Hs Hph Hph' Ht Hc Hp Hk.
  assert (dom (tasks w') = dom (tasks w)) as Hd.
  { rewrite Ht. apply dom_insert_lookup_L. eauto. }
  split; unfold live; rewrite ?Hd, ?Hc, ?Hp, ?Hk; [|done|done].
  rewrite Ht, (live_insert_live _ _ ph) by done. exact H1.
Qed.

Lemma accounted_finally w w' jobId ph :
  accounted w → tasks w !! jobId = Some ph → ph ≠ Settled →
  tasks w' = <[jobId:=Settled]> (tasks w) → currentJobCount w' = currentJobCount w - 1 →
  processingJobs w' = processingJobs w → pendingTicks w' = pendingTicks w → accounted w'.
Proof.
  intros [H1 H2 H3] Hs Hph Ht Hc Hp Hk.
  assert (dom (tasks w') = dom (tasks w)) as Hd.
  { rewrite Ht. apply dom_insert_lookup_L. eauto. }
  split; unfold live; rewrite ?Hd, ?Hc, ?Hp, ?Hk; [|done|done].
  rewrite Ht, H1. unfold live. pose proof (live_insert_settled _ _ _ Hs Hph). lia.
Qed.

Lemma accounted_settle w jobId :
  accounted w → tasks w !! jobId = Some Settled → accounted (settle jobId w).
Proof.
  intros [H1 H2 H3] Hs. unfold settle. split; unfold live; cbn.
  - rewrite live_delete_settled by done. exact H1.
  - rewrite dom_delete_L. set_solver.
  - apply Forall_forall. intros s Hs'.
    apply list_elem_of_In, filter_In in Hs' as [Hin Hne].
    apply list_elem_of_In, list_elem_of_fmap in Hin as (s0 & -> & Hin).
    rewrite Forall_forall in H3. destruct (H3 _ Hin) as [_ Hsub]. split.
    + apply negb_true_iff, bool_decide_eq_false in Hne. done.
    + rewrite dom_delete_L. set_solver.
Qed.

Lemma accounted_start w w' jobId ph' :
  accounted w → jobId ∉ processingJobs w → ph' ≠ Settled →
  tasks w' = <[jobId:=ph']> (tasks w) → currentJobCount w' = currentJobCount w + 1 →
  processingJobs w' = {[jobId]} ∪ processingJobs w → pendingTicks w' = pendingTicks w →
  accounted w'.
Proof.
  intros [H1 H2 H3] Hnew Hph' Ht Hc Hp Hk.
  assert (tasks w !! jobId = None) as Hn.
  { apply not_elem_of_dom. set_solver. }
  split; unfold live; rewrite ?Hc, ?Hp, ?Hk, Ht.
  - rewrite live_insert_new by done. rewrite H1. unfold live. lia.
  - rewrite dom_insert_L. set_solver.
  - eapply Forall_impl; [exact H3|]. intros s [? ?]. split; [done|].
    rewrite dom_insert_L. set_solver.
Qed.

Lemma accounted_push w s :
  accounted w → s ≠ ∅ → s ⊆ dom (tasks w) →
  accounted (set_pendingTicks (app (pendingTicks w) [s]) w).
Proof.
  intros [H1 H2 H3] Hne Hsub. split; [done|done|]. cbn.
  apply Forall_app. split; [done|]. by apply Forall_singleton.
Qed.

Lemma tracked_task w w' jobId ph' :
  tracked w → quiet_but jobId (jobManager w) (jobManager w') →
  (status_of (jobManager w') jobId = Some (VStr "processing") → running ph') →
  tasks w' = <[jobId:=ph']> (tasks w) → tracked w'.
Proof.
  intros [H1 H2] Hq Hrun Ht. destruct (Hq H2) as [Hnd Hs]. split; [|done].
  intros id Hid. destruct (Hs id Hid) as [[-> Hne]|Hold].
  - split; [done|]. exists ph'. rewrite Ht, lookup_insert_eq. eauto.
  - destruct (H1 id Hold) as (Hne & ph & Hph & Hr). split; [done|].
    destruct (decide (jobId = id)) as [->|Hdiff].
    + exists ph'. rewrite Ht, lookup_insert_eq. eauto.
    + exists ph. by rewrite Ht, lookup_insert_ne.
Qed.

Lemma tracked_store w w' :
  tracked w → quiet (jobManager w) (jobManager w') → tasks w' = tasks w → tracked w'.
Proof.
  intros [H1 H2] Hq Ht. destruct (Hq H2) as [Hnd Hs]. split; [|done].
  intros id Hid. rewrite Ht. eauto.
Qed.

Lemma tracked_idle w w' jobId :
  tracked w → jobManager w' = jobManager w →
  (∀ ph, tasks w !! jobId = Some ph → ¬ running ph) →
  (∀ jobId', jobId' ≠ jobId → tasks w' !! jobId' = tasks w !! jobId') → tracked w'.
Proof.
  intros [H1 H2] Hjm Hidle Hother. split; rewrite Hjm; [|done].
  intros id Hid. destruct (H1 id Hid) as (Hne & ph & Hph & Hr). split; [done|].
  exists ph. split; [|done]. rewrite Hother; [done|]. intros ->. by eapply Hidle.
Qed.

End Bookkeeping.

Section PollTick.
Import JobManager Worker.
Implicit Types (w : Worker.t) (jobId : string) (ph : phase).

(** The callback of [processQueue] skips the job or starts a call of
    [processJob] for it. *)
Lemma launch_step now w launched job :
  launch now (w, launched) job = (w, launched)
  ∨ ∃ jobId jm' ph',
      (jobId ∉ processingJobs w)
      ∧ (launch now (w, launched) job
         = (set_jobManager jm'
              (suspend jobId ph'
                 (set_currentJobCount (currentJobCount w + 1)
                    (set_processingJobs ({[jobId]} ∪ processingJobs w) w))),
            app launched [jobId]))
      ∧ ph' ≠ Settled ∧ quiet_but jobId (jobManager w) jm'
      ∧ (status_of jm' jobId = Some (VStr "processing") →
         running ph' ∨ (status_of (jobManager w) jobId = Some (VStr "processing") ∧ jobId = "")).
Proof.
  unfold launch. set (jobId := to_string _). case_bool_decide as Hin; [by left|right].
  destruct (processJob_spec jobId now (set_processingJobs ({[jobId]} ∪ processingJobs w) w))
    as (jm' & ph' & Heq & Hph & Hq & Hs).
  exists jobId, jm', ph'. split_and!; try done. by rewrite Heq.
Qed.

Lemma launch_fold now jobsToProcess : ∀ w launched,
  ∃ w' (new : list string),
    foldl (launch now) (w, launched) jobsToProcess = (w', app launched new)
    ∧ (length new ≤ length jobsToProcess)%nat
    ∧ currentJobCount w' = currentJobCount w + Z.of_nat (length new)
    ∧ maxConcurrentJobs w' = maxConcurrentJobs w
    ∧ pendingTicks w' = pendingTicks w
    ∧ (accounted w →
       accounted w' ∧ dom (tasks w') = dom (tasks w) ∪ list_to_set new
       ∧ list_to_set new ## dom (tasks w))
    ∧ (tracked w → tracked w').
Proof.
  induction jobsToProcess as [|job js IH]; intros w launched; cbn [foldl].
  - exists w, (@nil string). rewrite app_nil_r.
    split_and!; [done|done|cbn; lia|done|done| |done].
    intros ?. split_and!; [done|set_solver|set_solver].
  - destruct (launch_step now w launched job)
      as [->|(jobId & jm' & ph' & Hnew & -> & Hph & Hq & Hs)].
    + destruct (IH w launched) as (w' & new & -> & Hlen & ? & ? & ? & ? & ?).
      exists w', new. split_and!; try done. cbn. lia.
    + set (w1 := set_jobManager jm' _).
      destruct (IH w1 (app launched [jobId])) as (w' & new & -> & Hlen & Hc & Hm & Hk & Ha & Ht).
      exists w', (jobId :: new). split_and!.
      * by rewrite <- app_assoc.
      * cbn. lia.
      * rewrite Hc. cbn. lia.
      * by rewrite Hm.
      * by rewrite Hk.
      * intros Hacc.
        assert (accounted w1) as Hacc1.
        { eapply (accounted_start w w1 jobId ph'); done. }
        destruct (Ha Hacc1) as (Hacc' & Hdom & Hdisj).
        assert (dom (tasks w1) = {[jobId]} ∪ dom (tasks w)) as Hd1 by apply dom_insert_L.
        assert (jobId ∉ dom (tasks w)) as Hfresh.
        { destruct Hacc as [_ Hreg _]. set_solver. }
        split_and!; [done| |].
        -- rewrite Hdom, Hd1, list_to_set_cons. set_solver.
        -- rewrite list_to_set_cons. set_solver.
      * intros Htr. apply Ht.
        eapply (tracked_task w w1 jobId ph'); [done|done| |done].
        intros Hp. destruct (Hs Hp) as [?|[Hold ->]]; [done|].
        destruct Htr as [Htr _]. by destruct (Htr _ Hold).
Qed.

(** One call of [processQueue], up to its [await]. *)
Lemma processQueue_spec now w :
  ∃ admitted : list string,
    (currentJobCount w < maxConcurrentJobs w ∨ admitted = [])
    ∧ Z.of_nat (length admitted) ≤ Z.max 0 (maxConcurrentJobs w - currentJobCount w)
    ∧ currentJobCount (processQueue now w) = currentJobCount w + Z.of_nat (length admitted)
    ∧ maxConcurrentJobs (processQueue now w) = maxConcurrentJobs w
    ∧ pendingTicks (processQueue now w)
      = app (pendingTicks w) (match admitted with [] => [] | _ => [list_to_set admitted] end)
    ∧ (accounted w →
       accounted (processQueue now w)
       ∧ dom (tasks (processQueue now w)) = dom (tasks w) ∪ list_to_set admitted
       ∧ list_to_set admitted ## dom (tasks w))
    ∧ (tracked w → tracked (processQueue now w)).
Proof.
  assert (∀ w', tasks w' = tasks w → currentJobCount w' = currentJobCount w →
            processingJobs w' = processingJobs w → pendingTicks w' = pendingTicks w →
            maxConcurrentJobs w' = maxConcurrentJobs w →
            quiet (jobManager w) (jobManager w') →
            (currentJobCount w < maxConcurrentJobs w ∨ @nil string = [])
            ∧ Z.of_nat (length (@nil string)) ≤ Z.max 0 (maxConcurrentJobs w - currentJobCount w)
            ∧ currentJobCount w' = currentJobCount w + Z.of_nat (length (@nil string))
            ∧ maxConcurrentJobs w' = maxConcurrentJobs w
            ∧ pendingTicks w' = app (pendingTicks w) []
            ∧ (accounted w → accounted w' ∧ dom (tasks w') = dom (tasks w) ∪ list_to_set []
                             ∧ list_to_set (C:=gset string) [] ## dom (tasks w))
            ∧ (tracked w → tracked w')) as Hidle.
  { intros w' Ht Hc Hp Hk Hm Hq.
    split_and!; [by right|cbn; lia|cbn; lia|done|by rewrite app_nil_r| |].
    - intros Hacc. split_and!; [by eapply accounted_ext|rewrite Ht; set_solver|set_solver].
    - intros Htr. by eapply tracked_store. }
  unfold processQueue. destruct (Z.leb_spec (maxConcurrentJobs w) (currentJobCount w)) as [Hfull|Hfree].
  { exists (@nil string). apply Hidle; first [done|apply quiet_refl]. }
  destruct (getJobsByStatus (VStr "pending") (jobManager w)) as [[pendingJobs jm]|m] eqn:Hget.
  2:{ exists (@nil string). apply Hidle; first [done|apply quiet_refl]. }
  apply getJobsByStatus_jobs in Hget.
  destruct pendingJobs as [|job0 pendingJobs].
  { exists (@nil string). apply Hidle; first [done|by apply quiet_same_jobs]. }
  set (w0 := set_jobManager jm w).
  set (jobsToProcess := take _ _).
  destruct (launch_fold now jobsToProcess w0 []) as (w' & new & Hfold & Hlen & Hc & Hm & Hk & Ha & Ht).
  rewrite Hfold. cbn [app]. exists new. split_and!.
  - by left.
  - assert (length jobsToProcess ≤ Z.to_nat (maxConcurrentJobs w - currentJobCount w))%nat.
    { unfold jobsToProcess. rewrite length_take. cbn. lia. }
    lia.
  - destruct new; exact Hc.
  - destruct new; exact Hm.
  - destruct new; [rewrite app_nil_r; exact Hk|].
    change (app (pendingTicks w') [list_to_set (s :: new)]
            = app (pendingTicks w) [list_to_set (s :: new)]).
    by rewrite Hk.
  - intros Hacc. assert (accounted w0) as Hacc0 by (by eapply accounted_ext).
    destruct (Ha Hacc0) as (Hacc' & Hdom & Hdisj). destruct new as [|jobId new].
    + done.
    + split_and!; [|done|done]. apply accounted_push; [done| |].
      * rewrite list_to_set_cons. set_solver.
      * rewrite Hdom. set_solver.
  - intros Htr. assert (tracked w0) as Htr0.
    { eapply tracked_store; [done| |done]. by apply quiet_same_jobs. }
    destruct new; [by apply Ht|]. eapply tracked_store; [by apply Ht|apply quiet_refl|done].
Qed.

(** The calls that a tick starts are the ones its call of [processQueue]
    waits for. *)
Lemma processQueue_pendingTicks now w :
  accounted w →
  let started := dom (tasks (processQueue now w)) ∖ dom (tasks w) in
  pendingTicks (processQueue now w)
  = app (pendingTicks w) (if decide (started = ∅) then [] else [started]).
Proof.
  intros Hacc started.
  destruct (processQueue_spec now w) as (adm & _ & _ & _ & _ & Hk & Ha & _).
  destruct (Ha Hacc) as (_ & Hdom & Hdisj).
  assert (started = list_to_set adm) as -> by (unfold started; set_solver).
  rewrite Hk. destruct adm as [|jobId adm].
  - by rewrite decide_True.
  - rewrite decide_False; [done|]. rewrite list_to_set_cons. set_solver.
Qed.

(** With a free slot, the first pending job is started, unless a call
    of [processJob] is registered for it. *)
Lemma processQueue_first now w job :
  accounted w →
  head (List.filter (has_status (VStr "pending")) (map_values (jobs (jobManager w))))
    = Some job →
  currentJobCount w < maxConcurrentJobs w →
  to_string (default VUndef (job !! "jobId")) ∉ processingJobs w →
  to_string (default VUndef (job !! "jobId")) ∈ dom (tasks (processQueue now w)).
Proof.
  intros Hacc Hhead Hfree Hnew. unfold processQueue.
  destruct (Z.leb_spec (maxConcurrentJobs w) (currentJobCount w)) as [?|_]; [lia|].
  unfold getJobsByStatus. cbn [truthy String.eqb negb].
  rewrite bool_decide_true by (unfold statuses; set_solver). cbn [negb].
  destruct (List.filter _ _) as [|job0 js]; [done|]. injection Hhead as ->.
  destruct (copies_head job js (objects (jobManager w))) as (l & vs & h' & -> & Hl).
  set (w0 := set_jobManager _ w).
  assert (take (Z.to_nat (maxConcurrentJobs w0 - currentJobCount w0)) (VRef l :: vs)
          = VRef l :: take (Z.to_nat (maxConcurrentJobs w - currentJobCount w) - 1) vs) as ->.
  { cbn [maxConcurrentJobs currentJobCount w0 set_jobManager].
    destruct (Z.to_nat (maxConcurrentJobs w - currentJobCount w)) as [|n] eqn:Hn; [lia|].
    replace (S n - 1)%nat with n by lia. done. }
  cbn [foldl].
  assert (accounted w0) as Hacc0 by (by eapply accounted_ext).
  destruct (launch_step now w0 [] (VRef l))
    as [Hskip|(jobId & jm' & ph' & Hin & Heq & Hph & _)].
  - exfalso. unfold launch in Hskip.
    cbn [jobManager w0 set_jobManager objects processingJobs get_prop] in Hskip.
    rewrite Hl in Hskip. cbn [default from_option id] in Hskip.
    fold (default VUndef (job !! "jobId")) in Hskip.
    rewrite bool_decide_false in Hskip by done.
    apply (f_equal snd) in Hskip. cbn in Hskip. discriminate.
  - assert (jobId = to_string (default VUndef (job !! "jobId"))) as Hid.
    { unfold launch in Heq.
      cbn [jobManager w0 set_jobManager objects processingJobs get_prop] in Heq.
      rewrite Hl in Heq. cbn [default from_option id] in Heq.
      fold (default VUndef (job !! "jobId")) in Heq.
      rewrite bool_decide_false in Heq by done.
      apply (f_equal snd) in Heq. cbn in Heq. by injection Heq as <-. }
    rewrite Heq. set (w1 := set_jobManager jm' _).
    assert (accounted w1) as Hacc1.
    { eapply (accounted_start w0 w1 jobId ph'); done. }
    destruct (launch_fold now (take (Z.to_nat (maxConcurrentJobs w - currentJobCount w) - 1) vs)
                w1 (app [] [jobId])) as (w' & new & -> & _ & _ & _ & _ & Ha & _).
    destruct (Ha Hacc1) as (_ & Hdom & _).
    assert (jobId ∈ dom (tasks w')) as Hres.
    { rewrite Hdom. apply elem_of_union_l.
      cbn [w1 tasks set_jobManager suspend set_tasks]. rewrite dom_insert_L. set_solver. }
    rewrite <- Hid. by destruct (app (app [] [jobId]) new).
Qed.

End PollTick.

Section Runs.
Import JobManager Worker.
Context {E : Engine}.
Implicit Types (w : Worker.t) (jobId : string) (ph : phase) (e : event).

Lemma not_running ph : ¬ running ph → ph = AwaitCleanup ∨ ph = Settled.
Proof. unfold running. destruct ph; intros H; eauto; exfalso; apply H; done. Qed.

Lemma resume_idle jobId o now w ph :
  tasks w !! jobId = Some ph → ¬ running ph →
  resume jobId o now w =
    match ph with
    | Settled => settle jobId w
    | _ => suspend jobId Settled (set_currentJobCount (currentJobCount w - 1) w)
    end.
Proof. intros Ht [-> | ->]%not_running; unfold resume; by rewrite Ht. Qed.

(** The bookkeeping survives every event, and the counter stays below
    the ceiling. *)
Lemma step_accounted w e :
  accounted w →
  accounted (step w e)
  ∧ maxConcurrentJobs (step w e) = maxConcurrentJobs w
  ∧ (currentJobCount w ≤ maxConcurrentJobs w →
     currentJobCount (step w e) ≤ maxConcurrentJobs w).
Proof.
  intros Hacc. destruct e as [requestData jobId now|now|jobId o now|hours now]; cbn [step].
  - split_and!; [by eapply accounted_ext|done|done].
  - destruct (processQueue_spec now w) as (adm & Hfree & Hlen & Hc & Hm & _ & Ha & _).
    split_and!; [by apply Ha|done|]. rewrite Hc. destruct Hfree as [?| ->]; [lia|cbn; lia].
  - destruct (tasks w !! jobId) as [ph|] eqn:Ht; [|unfold resume; by rewrite Ht].
    destruct (decide (running ph)) as [Hrun|Hidle].
    + destruct (resume_running jobId o now w ph Ht Hrun) as (jm' & ph' & -> & Hph' & _).
      split_and!; [|done|done]. destruct Hrun as [_ Hns].
      by eapply (accounted_phase w _ jobId ph ph').
    + rewrite (resume_idle _ _ _ _ _ Ht Hidle). apply not_running in Hidle as [-> | ->].
      * split_and!; [|done|cbn; lia]. by eapply (accounted_finally w _ jobId AwaitCleanup).
      * split_and!; [by apply accounted_settle|done|done].
  - destruct (cleanupExpiredJobs _ _ _) as [[? jm]|]; [|done].
    split_and!; [by eapply accounted_ext|done|done].
Qed.

(** The store and the worker stay in agreement, as long as every
    failure of a stage comes with a message. *)
Lemma step_tracked w e : tracked w → has_message e → tracked (step w e).
Proof.
  intros Htr Hmsg. destruct e as [requestData jobId now|now|jobId o now|hours now]; cbn [step].
  - eapply tracked_store; [done| |done]. apply createJob_quiet.
  - destruct (processQueue_spec now w) as (adm & _ & _ & _ & _ & _ & _ & Ht). by apply Ht.
  - destruct (tasks w !! jobId) as [ph|] eqn:Ht; [|unfold resume; by rewrite Ht].
    destruct (decide (running ph)) as [Hrun|Hidle].
    + destruct (resume_running jobId o now w ph Ht Hrun) as (jm' & ph' & -> & Hph' & Hq & Hs).
      eapply (tracked_task w _ jobId ph'); [done|by apply quiet_is_quiet_but| |done].
      intros Hp. destruct (Hs Hp) as [?|[Hold Hbad]]; [done|]. exfalso.
      destruct Htr as [Hproc _]. destruct (Hproc _ Hold) as [Hne _].
      destruct Hbad as [?|Hbad]; [done|]. destruct o; [done|]. cbn in Hmsg. congruence.
    + rewrite (resume_idle _ _ _ _ _ Ht Hidle).
      eapply (tracked_idle w _ jobId); [done| | |].
      * by destruct ph.
      * intros ph0 Hph0. congruence.
      * intros id Hne. destruct ph; cbn; by rewrite ?lookup_insert_ne, ?lookup_delete_ne.
  - destruct (cleanupExpiredJobs _ _ _) as [[? jm]|] eqn:Hc; [|done].
    eapply tracked_store; [done| |done]. by eapply cleanupExpiredJobs_quiet.
Qed.

Lemma run_accounted trace : ∀ w,
  accounted w →
  accounted (run w trace)
  ∧ maxConcurrentJobs (run w trace) = maxConcurrentJobs w
  ∧ (currentJobCount w ≤ maxConcurrentJobs w →
     currentJobCount (run w trace) ≤ maxConcurrentJobs w).
Proof.
  induction trace as [|e trace IH]; intros w Hacc; [done|]. cbn [run foldl].
  destruct (step_accounted w e Hacc) as (Hacc' & Hm & Hle).
  destruct (IH _ Hacc') as (Hacc'' & Hm' & Hle'). rewrite Hm in Hm', Hle'.
  split_and!; [done|done|]. intros Hw. apply Hle', Hle, Hw.
Qed.

Lemma run_tracked trace : ∀ w,
  tracked w → Forall has_message trace → tracked (run w trace).
Proof.
  induction trace as [|e trace IH]; intros w Htr Hall; [done|]. cbn [run foldl].
  apply Forall_cons in Hall as [He Hall]. apply IH; [|done]. by apply step_tracked.
Qed.

Lemma create_accounted jm maxConcurrentJobs : accounted (create jm maxConcurrentJobs).
Proof.
  split; cbn.
  - unfold live, live_of. cbn. by rewrite map_filter_empty, map_size_empty.
  - set_solver.
  - constructor.
Qed.

Lemma create_tracked jm maxConcurrentJobs :
  NoDup (map_keys (jobs jm)) →
  (∀ jobId, status_of jm jobId ≠ Some (VStr "processing")) →
  tracked (create jm maxConcurrentJobs).
Proof. intros Hnd Hnone. split; cbn; [|done]. intros jobId Hp. by apply Hnone in Hp. Qed.

(** Every job in status [processing] is one of the calls of
    [processJob] the counter counts. *)
Lemma processing_counted w :
  accounted w → tracked w → Z.of_nat (length (processing w)) ≤ currentJobCount w.
Proof.
  intros [Hc _ _] [Hp Hnd]. rewrite Hc. apply inj_le.
  assert (NoDup (processing w)) as Hnd'.
  { unfold processing. by apply (map_keys_filter_NoDup _ (jobs (jobManager w))). }
  rewrite <- (size_list_to_set (C:=gset string)) by done.
  rewrite <- (size_dom (D:=gset string) (live w)). apply subseteq_size.
  intros jobId Hin. apply elem_of_list_to_set in Hin.
  unfold processing in Hin. apply list_elem_of_fmap in Hin as ([id job] & -> & Hin).
  apply list_elem_of_In, filter_In in Hin as [Hin Hs]. apply list_elem_of_In in Hin.
  cbn in Hs. unfold has_status, status_of_job in Hs. apply bool_decide_eq_true in Hs.
  assert (status_of (jobManager w) id = Some (VStr "processing")) as Hst.
  { unfold status_of, field_of, job_of. rewrite (elem_map_get _ _ _ Hnd Hin). cbn.
    by destruct (job !! "status") as [v|]; [rewrite <- Hs|]. }
  destruct (Hp _ Hst) as (_ & ph & Hph & _ & Hns).
  apply elem_of_dom. exists ph. by apply map_lookup_filter_Some_2.
Qed.

(** What [processQueue] does to the jobs does not depend on the calls
    of [processQueue] that are still suspended. *)
Lemma set_pendingTicks_processJob jobId now ps w :
  processJob jobId now (set_pendingTicks ps w) = set_pendingTicks ps (processJob jobId now w).
Proof.
  unfold processJob, attempt, thrown, job_failed. cbn.
  repeat (case_match; cbn; try done).
Qed.

Lemma set_pendingTicks_launch now ps job w launched :
  launch now (set_pendingTicks ps w, launched) job
  = (set_pendingTicks ps (launch now (w, launched) job).1, (launch now (w, launched) job).2).
Proof.
  unfold launch. cbn [jobManager set_pendingTicks processingJobs].
  case_bool_decide; [done|]. cbn [fst snd].
  by rewrite <- set_pendingTicks_processJob.
Qed.

Lemma set_pendingTicks_fold now ps js : ∀ w launched,
  foldl (launch now) (set_pendingTicks ps w, launched) js
  = (set_pendingTicks ps (foldl (launch now) (w, launched) js).1,
     (foldl (launch now) (w, launched) js).2).
Proof.
  induction js as [|job js IH]; intros w launched; cbn [foldl]; [done|].
  rewrite set_pendingTicks_launch.
  destruct (launch now (w, launched) job) as [w1 l1]. cbn [fst snd]. apply IH.
Qed.

Lemma set_pendingTicks_processQueue now ps w :
  let r := processQueue now (set_pendingTicks ps w) in
  jobManager r = jobManager (processQueue now w)
  ∧ tasks r = tasks (processQueue now w)
  ∧ currentJobCount r = currentJobCount (processQueue now w)
  ∧ processingJobs r = processingJobs (processQueue now w).
Proof.
  unfold processQueue. cbn [maxConcurrentJobs currentJobCount jobManager set_pendingTicks].
  destruct (_ <=? _); [done|].
  destruct (getJobsByStatus _ _) as [[pendingJobs jm]|]; [|done].
  destruct pendingJobs as [|job0 pendingJobs]; [done|].
  cbn [maxConcurrentJobs currentJobCount jobManager set_jobManager].
  change (set_jobManager jm (set_pendingTicks ps w)) with (set_pendingTicks ps (set_jobManager jm w)).
  rewrite set_pendingTicks_fold.
  destruct (foldl _ _ _) as [w' launched]. cbn [fst snd]. by destruct launched.
Qed.

Lemma filter_nonempty (l : list (gset string)) :
  List.filter (fun s => negb (bool_decide (s = ∅))) l = filter (fun s => s ≠ ∅) l.
Proof.
  induction l as [|s l IH]; [done|]. cbn [List.filter]. rewrite filter_cons, <- IH.
  destruct (decide (s = ∅)) as [->|Hne].
  - rewrite bool_decide_true by done. cbn [negb]. by rewrite decide_False by tauto.
  - rewrite bool_decide_false by done. cbn [negb]. by rewrite decide_True.
Qed.

(** What the end of an awaited call does to the suspended calls of
    [processQueue]: when the promise of the job settles, the job leaves
    the set of each call, and the calls that wait for nothing else
    return; otherwise they are left as they are. *)
Lemma resume_pendingTicks jobId o now w :
  pendingTicks (resume jobId o now w)
  = if decide (tasks w !! jobId = Some Settled)
    then filter (fun s => s ≠ ∅) ((fun s => s ∖ {[jobId]}) <$> pendingTicks w)
    else pendingTicks w.
Proof.
  destruct (tasks w !! jobId) as [ph|] eqn:Ht.
  2:{ rewrite decide_False by done. unfold resume. by rewrite Ht. }
  destruct (decide (running ph)) as [Hrun|Hidle].
  - destruct (resume_running jobId o now w ph Ht Hrun) as (jm' & ph' & -> & _).
    rewrite decide_False; [done|]. intros [= ->]. by destruct Hrun.
  - rewrite (resume_idle _ _ _ _ _ Ht Hidle). apply not_running in Hidle as [-> | ->].
    + by rewrite decide_False.
    + rewrite decide_True by done. unfold settle. cbn [pendingTicks set_pendingTicks].
      apply filter_nonempty.
Qed.

End Runs.

(** The scenario of the specification: three jobs and two slots.  After
    the first tick two jobs are in status [processing] and one is
    pending; the call of [processQueue] is suspended and waits for the
    two jobs, which are at their first [await]. *)
Lemma three_jobs_two_slots {E : Engine} :
  let w := Worker.run (Worker.create JobManager.empty (VNum 2)) Examples.three_jobs in
  Worker.processing w = ["job-a"; "job-b"]
  ∧ JobManager.status_of (Worker.jobManager w) "job-c" = Some (VStr "pending")
  ∧ Worker.currentJobCount w = 2
  ∧ Worker.pendingTicks w = [{["job-a"; "job-b"]}]
  ∧ Worker.tasks w = {[ "job-a" := Worker.AwaitRender; "job-b" := Worker.AwaitRender ]}.
Proof. vm_compute. split_and!; reflexivity. Qed.

(** The counter keeps to the ceiling in every run, and so do the jobs in
    status [processing] as long as every failure of a stage comes with a
    message.  A worker built with [maxConcurrentJobs = N], [N] positive,
    on a job manager none of whose jobs is in status [processing]; after
    every sequence of events: the ceiling is [N]; [currentJobCount] is
    the number of calls of [processJob] that have started and not
    reached their [finally], and it is at most [N]; the next poll tick
    starts at most [N - currentJobCount] calls, each for a job that has
    none; and when every failure had a message, the jobs in status
    [processing] are at most [currentJobCount]. *)
Lemma ceiling_when_failures_have_messages {E : Engine} jm N trace :
  0 < N →
  NoDup (map_keys (JobManager.jobs jm)) →
  (∀ jobId, JobManager.status_of jm jobId ≠ Some (VStr "processing")) →
  let w := Worker.run (Worker.create jm (VNum N)) trace in
  Worker.maxConcurrentJobs w = N
  ∧ Worker.currentJobCount w = Z.of_nat (size (Worker.live w))
  ∧ Worker.currentJobCount w ≤ N
  ∧ (∀ now, ∃ admitted : list string,
      Z.of_nat (length admitted) ≤ N - Worker.currentJobCount w
      ∧ Worker.currentJobCount (Worker.step w (Worker.Tick now))
        = Worker.currentJobCount w + Z.of_nat (length admitted)
      ∧ dom (Worker.tasks (Worker.step w (Worker.Tick now)))
        = dom (Worker.tasks w) ∪ list_to_set admitted
      ∧ list_to_set admitted ## dom (Worker.tasks w))
  ∧ (Forall Worker.has_message trace →
     Z.of_nat (length (Worker.processing w)) ≤ Worker.currentJobCount w).
Proof.
  intros HN Hnd Hnone w.
  assert (Worker.maxConcurrentJobs (Worker.create jm (VNum N)) = N) as Hmax.
  { cbn. unfold or_else. cbn. by destruct (Z.eqb_spec N 0); [lia|]. }
  destruct (run_accounted trace _ (create_accounted jm (VNum N)))
    as (Hacc & Hm & Hle).
  rewrite Hmax in Hm, Hle. fold w in Hacc, Hm, Hle.
  assert (Worker.currentJobCount w ≤ N) as Hbound by (apply Hle; cbn; lia).
  split_and!.
  - done.
  - by destruct Hacc.
  - done.
  - intros now. cbn [Worker.step].
    destruct (processQueue_spec now w) as (adm & _ & Hlen & Hc & _ & _ & Ha & _).
    destruct (Ha Hacc) as (_ & Hdom & Hdisj). exists adm. rewrite Hm in Hlen.
    split_and!; [lia|done|done|done].
  - intros Hmsg. apply processing_counted; [done|].
    apply run_tracked; [by apply create_tracked|done].
Qed.

(** C2: the ceiling is kept by the counter, not by the job statuses.  A
    worker with one slot and two jobs.  The first tick starts job-a,
    which comes to [await this.storageProvider.save(...)] in status
    [processing].  The storage provider rejects with an error whose
    message is empty: in the [catch] block [setJobFailed] throws
    [errorMessage is required], the inner [catch] logs that, and the job
    is left in status [processing].  Its [finally] block releases the
    slot, so the next tick starts job-b: two jobs are in status
    [processing] with a ceiling of one, and no call of [processJob] is
    left for job-a.  When the error has a message, the same run marks
    job-a as failed and leaves job-b alone in status [processing]. *)
Theorem C2_concurrency_ceiling {E : Engine} :
  let start := Worker.create JobManager.empty (VNum 1) in
  let w := Worker.run start Examples.silent_failure in
  Worker.maxConcurrentJobs w = 1
  ∧ (let w3 := Worker.run start (take 3 Examples.silent_failure) in
     Worker.processing w3 = ["job-a"] ∧ Worker.currentJobCount w3 = 1)
  ∧ (let w8 := Worker.run start (take 8 Examples.silent_failure) in
     Worker.tasks w8 = {[ "job-a" := Worker.AwaitSave ]})
  ∧ (let w9 := Worker.run start (take 9 Examples.silent_failure) in
     Worker.tasks w9 = {[ "job-a" := Worker.AwaitCleanup ]}
     ∧ JobManager.status_of (Worker.jobManager w9) "job-a" = Some (VStr "processing"))
  ∧ Worker.processing w = ["job-a"; "job-b"]
  ∧ Worker.currentJobCount w = 1
  ∧ Worker.tasks w = {[ "job-b" := Worker.AwaitRender ]}
  ∧ (let w' := Worker.run start Examples.loud_failure in
     JobManager.status_of (Worker.jobManager w') "job-a" = Some (VStr "failed")
     ∧ Worker.processing w' = ["job-b"]).
Proof. vm_compute. split_and!; reflexivity. Qed.

(** C5, as the code has it.  [processQueue] ends with
    [await Promise.allSettled(processingPromises)].  A call that has
    started calls of [processJob] is suspended until every one of them
    has settled: it is registered with the set of the jobs it started;
    when the promise of a job settles, the job leaves the set of each
    suspended call, and a call returns exactly when its set has become
    empty; no other event changes the suspended calls, each of which
    waits for calls of [processJob] that have not settled.  A tick with
    a free slot starts the first pending job, unless a call is
    registered for it.  The poll timer is not held up by the suspended
    calls: what the next call of [processQueue] does to the store, the
    counter and the jobs is the same whatever calls are suspended. *)
Theorem C5_processQueue_waits_for_its_jobs {E : Engine} jm maxConcurrentJobs trace :
  let w := Worker.run (Worker.create jm maxConcurrentJobs) trace in
  Forall (fun s => s ≠ ∅ ∧ s ⊆ dom (Worker.tasks w)) (Worker.pendingTicks w)
  ∧ (∀ now,
       let w' := Worker.step w (Worker.Tick now) in
       let started := dom (Worker.tasks w') ∖ dom (Worker.tasks w) in
       Worker.pendingTicks w'
       = app (Worker.pendingTicks w) (if decide (started = ∅) then [] else [started])
       ∧ ∀ job,
           head (List.filter (JobManager.has_status (VStr "pending"))
                             (map_values (JobManager.jobs (Worker.jobManager w)))) = Some job →
           Worker.currentJobCount w < Worker.maxConcurrentJobs w →
           to_string (default VUndef (job !! "jobId")) ∉ Worker.processingJobs w →
           to_string (default VUndef (job !! "jobId")) ∈ started)
  ∧ (∀ jobId o now,
       Worker.tasks w !! jobId = Some Worker.Settled →
       Worker.pendingTicks (Worker.step w (Worker.Resume jobId o now))
       = filter (fun s => s ≠ ∅) ((fun s => s ∖ {[jobId]}) <$> Worker.pendingTicks w))
  ∧ (∀ e,
       match e with
       | Worker.Tick _ => False
       | Worker.Resume jobId _ _ => Worker.tasks w !! jobId ≠ Some Worker.Settled
       | _ => True
       end →
       Worker.pendingTicks (Worker.step w e) = Worker.pendingTicks w)
  ∧ (∀ now suspended,
      let w' := Worker.step w (Worker.Tick now) in
      let w'' := Worker.step (Worker.set_pendingTicks suspended w) (Worker.Tick now) in
      Worker.jobManager w'' = Worker.jobManager w'
      ∧ Worker.tasks w'' = Worker.tasks w'
      ∧ Worker.currentJobCount w'' = Worker.currentJobCount w'
      ∧ Worker.processingJobs w'' = Worker.processingJobs w').
Proof.
  intros w.
  destruct (run_accounted trace _ (create_accounted jm maxConcurrentJobs))
    as (Hacc & _ & _).
  fold w in Hacc. split_and!.
  - by destruct Hacc.
  - intros now. cbn [Worker.step]. split; [by apply processQueue_pendingTicks|].
    intros job Hhead Hfree Hnew. apply elem_of_difference. split.
    + by apply processQueue_first.
    + destruct Hacc as [_ Hreg _]. set_solver.
  - intros jobId o now Hs. cbn [Worker.step]. rewrite resume_pendingTicks.
    by rewrite decide_True.
  - intros [requestData jobId now|now|jobId o now|hours now] He; cbn [Worker.step].
    + done.
    + done.
    + rewrite resume_pendingTicks. by rewrite decide_False.
    + by destruct (JobManager.cleanupExpiredJobs _ _ _) as [[? ?]|].
  - intros now suspended. apply set_pendingTicks_processQueue.
Qed.

(** C5 as the specification states it fails: after the tick of
    [Examples.three_jobs] the call of [processQueue] has not returned.
    It is suspended while job-a and job-b are at their first [await], it
    is still suspended when job-a has settled, and it returns when job-b
    has settled too. *)
Lemma C5_counterexample :
  let start := Worker.create JobManager.empty (VNum 2) in
  let w := @Worker.run Examples.engine start Examples.three_jobs in
  Worker.pendingTicks w = [{["job-a"; "job-b"]}]
  ∧ Worker.tasks w !! "job-a" = Some Worker.AwaitRender
  ∧ Worker.tasks w !! "job-b" = Some Worker.AwaitRender
  ∧ Worker.pendingTicks (@Worker.run Examples.engine start Examples.job_a_settles)
    = [{["job-b"]}]
  ∧ Worker.pendingTicks (@Worker.run Examples.engine start Examples.job_b_settles) = [].
Proof. vm_compute. split_and!; reflexivity. Qed.
(** ** The signature verifier *)

Section SignatureVerifierFacts.
Import SignatureVerifier.
Variable hmac_sha256_hex : string → string → string.
Variable JSON_stringify : heap → val → string.
Variable Number : string → option Z.

Local Abbreviation generateSignature := (generateSignature hmac_sha256_hex JSON_stringify).
Local Abbreviation verifySignature := (verifySignature hmac_sha256_hex JSON_stringify Number).

Lemma timingSafeEqual_true a b : timingSafeEqual a b = true ↔ a = b.
Proof.
  unfold timingSafeEqual. split.
  - destruct (negb _); [done|]. by intros ?%String.eqb_eq.
  - intros ->. by rewrite Nat.eqb_refl, String.eqb_refl.
Qed.

(** A request that carries the signature [generateSignature] computes for
    its timestamp and its body passes, when the timestamp is a positive
    number of seconds at most five minutes from now and the body is not
    falsy. *)
Lemma verifySignature_accepts_signed_fresh secret timestamp seconds body h now signature :
  secret ≠ "" → timestamp ≠ "" →
  Number timestamp = Some seconds → 0 < seconds →
  Z.abs (now - seconds * 1000) ≤ TIMESTAMP_TOLERANCE_MS →
  truthy body = true →
  generateSignature h timestamp body secret = Ok signature → signature ≠ "" →
  verifySignature (Some secret) (Some signature) (Some timestamp) body h now = Next.
Proof.
  intros Hsecret Hts Hnum Hpos Hfresh Hbody Hsig Hne. unfold verifySignature.
  destruct secret as [|c0 secret0]; [done|]. destruct signature as [|c1 signature0] eqn:Es; [done|].
  destruct timestamp as [|c2 timestamp0] eqn:Et; [done|].
  unfold validateTimestamp. rewrite Hnum.
  destruct (Z.leb_spec seconds 0); [lia|].
  destruct (Z.ltb_spec TIMESTAMP_TOLERANCE_MS (Z.abs (now - seconds * 1000))); [lia|].
  rewrite Hbody, Hsig. by rewrite (proj2 (timingSafeEqual_true _ _) eq_refl).
Qed.

(** A request whose timestamp is more than five minutes from now does
    not pass, whatever its signature. *)
Lemma verifySignature_rejects_stale secret signature timestamp seconds body h now :
  Number timestamp = Some seconds →
  TIMESTAMP_TOLERANCE_MS < Z.abs (now - seconds * 1000) →
  verifySignature secret signature (Some timestamp) body h now ≠ Next.
Proof.
  intros Hnum Hstale. unfold verifySignature.
  destruct secret as [[|c0 secret0]|]; [done| |done].
  destruct signature as [[|c1 signature0]|]; [done| |done].
  destruct timestamp as [|c2 timestamp0] eqn:Et; [done|].
  unfold validateTimestamp. rewrite Hnum.
  destruct (Z.leb_spec seconds 0); [done|].
  by destruct (Z.ltb_spec TIMESTAMP_TOLERANCE_MS (Z.abs (now - seconds * 1000))); [|lia].
Qed.

(** A request that passes carries, up to the case of its letters, the
    digest of [timestamp:body] under the secret of the server. *)
Lemma verifySignature_Next secret signature timestamp body h now :
  verifySignature secret signature timestamp body h now = Next →
  ∃ secret' signature' timestamp' body' h',
    secret = Some secret' ∧ signature = Some signature' ∧ timestamp = Some timestamp'
    ∧ validateTimestamp Number timestamp' now = None
    ∧ (body', h') = (if truthy body then (body, h) else (VRef (alloc ∅ h).1, (alloc ∅ h).2))
    ∧ ∃ expected, generateSignature h' timestamp' body' secret' = Ok expected
                  ∧ toLowerCase signature' = toLowerCase expected.
Proof.
  unfold verifySignature.
  destruct secret as [[|c0 secret0]|]; [done| |done].
  destruct signature as [[|c1 signature0]|]; [done| |done].
  destruct timestamp as [[|c2 timestamp0]|]; [done| |done].
  destruct (validateTimestamp _ _ _) eqn:Hv; [done|].
  destruct (truthy body).
  - destruct (generateSignature _ _ _ _) as [expected|] eqn:Hg; [|done].
    destruct (timingSafeEqual _ _) eqn:Heq; [|done]. intros _.
    apply timingSafeEqual_true in Heq. eexists _, _, _, _, _. split_and!; try done. eauto.
  - unfold alloc. cbv zeta.
    destruct (generateSignature _ _ _ _) as [expected|] eqn:Hg; [|done].
    destruct (timingSafeEqual _ _) eqn:Heq; [|done]. intros _.
    apply timingSafeEqual_true in Heq. eexists _, _, _, _, _. split_and!; try done. eauto.
Qed.

End SignatureVerifierFacts.
